(** * A bounded-concurrency task queue (olegskl/queue), embedded in Rocq.

    The JavaScript module exports a constructor that closes over four
    variables ([options], [isClosed], [items], [running]) and returns an
    object of methods.  The embedding keeps those four variables in a
    record, adds the two pieces of the environment the code talks to
    (the [process.nextTick] queue and the completion handlers that were
    handed to workers and not yet invoked), and turns every entry point
    of the code into a function on that state which also reports the
    calls made to user code (the worker and the completion callback).

    Every call of user code in the source sits in tail position (nothing
    of the queue's bookkeeping runs after it), so a re-entrant call made
    by user code behaves exactly like the same call made right after the
    entry point returned: an execution of the program is a sequence of
    atomic events, which is what [run] below folds over.  User code is
    called as a method of [options] and can assign to its keys through
    [this]; [perform] folds over executions with such writes. *)

From Stdlib Require Import String List ZArith QArith Qround Bool Lia Arith.
Import ListNotations.

#[local] Set Warnings "-register-all".
Local Open Scope Z_scope.

(** ** JavaScript values *)

(** A JavaScript number: a finite value (every finite double is a
    rational; -0 is identified with 0, which neither [>=] nor truthiness
    tells apart), the two infinities, and NaN. *)
Inductive number : Type :=
| Fin (q : Q)
| PosInf
| NegInf
| NaN.

(** The fragment of JavaScript values the queue is exercised with:
    primitives, opaque functions (told apart by an identifier) and plain
    objects given by their own properties. *)
Inductive value : Type :=
| VUndefined
| VNull
| VBool (b : bool)
| VNum (n : number)
| VStr (s : string)
| VFun (id : nat)
| VObj (props : list (string * value)).

(** [if (v)]: JavaScript truthiness. *)
Definition truthy (v : value) : bool :=
  match v with
  | VUndefined | VNull => false
  | VBool b => b
  | VNum (Fin q) => negb (Qeq_bool q 0)
  | VNum NaN => false
  | VNum _ => true
  | VStr EmptyString => false
  | VStr _ => true
  | VFun _ | VObj _ => true
  end.

(** [typeof v === 'function'] ([typeof v === 'number'] is a match on
    [VNum]). *)
Definition is_function (v : value) : bool :=
  match v with VFun _ => true | _ => false end.

(** [r >= c] for an integer counter [r] and a number [c]; any comparison
    with NaN is false. *)
Definition ge_js (r : Z) (c : number) : bool :=
  match c with
  | Fin q => Qle_bool q (inject_Z r)
  | PosInf => false
  | NegInf => true
  | NaN => false
  end.

(** [o.hasOwnProperty(k)] and [o[k]] on an object of the fragment. *)
Fixpoint lookup (k : string) (props : list (string * value)) : option value :=
  match props with
  | [] => None
  | (k', v) :: rest => if String.eqb k k' then Some v else lookup k rest
  end.

Definition has_own (o : value) (k : string) : bool :=
  match o with
  | VObj props => match lookup k props with Some _ => true | None => false end
  | _ => false
  end.

Definition get_prop (o : value) (k : string) : value :=
  match o with
  | VObj props => match lookup k props with Some v => v | None => VUndefined end
  | _ => VUndefined
  end.

(** The first formal parameter of a call: [undefined] when the call
    passed no argument. *)
Definition arg0 (args : list value) : value :=
  match args with
  | [] => VUndefined
  | v :: _ => v
  end.

(** ** The state of a queue *)

(** [function noop() {}] *)
Definition noop : value := VFun 0.

Record Options : Type := mkOptions {
  concurrency : number;   (* task concurrency limit *)
  worker : value;         (* worker function to run for every queue item *)
  callback : value        (* callback to issue on queue completion *)
}.

(** The variables the constructor closes over. *)
Record Queue : Type := mkQueue {
  options : Options;
  isClosed : bool;        (* the queue is open once constructed *)
  items : list value;     (* container of items to process *)
  running : Z             (* count of currently running items *)
}.

(** The queue together with its environment: [ticks] counts the
    [process.nextTick(work)] entries not yet run, [inflight] the
    completion handlers passed to a worker and not yet invoked. *)
Record World : Type := mkWorld {
  st : Queue;
  ticks : nat;
  inflight : nat
}.

(** A call from the queue to user code. *)
Inductive call : Type :=
| WorkerCall (f : value) (item : value)         (* options.worker(item, handler) *)
| CallbackCall (f : value) (args : list value). (* options.callback(...) *)

(** What a method returns: the queue itself (cascading) or a value. *)
Inductive retval : Type :=
| RetQueue
| RetValue (v : value).

Record Res : Type := mkRes {
  next : World;
  calls : list call;
  ret : retval
}.

(** A method either returns or throws (only [options] can throw, a
    TypeError, and it does so before any mutation). *)
Inductive outcome : Type :=
| Returns (r : Res)
| Throws.

(** Field updates. *)
Definition set_options (o : Options) (w : World) : World :=
  mkWorld (mkQueue o (isClosed (st w)) (items (st w)) (running (st w)))
          (ticks w) (inflight w).

Definition set_isClosed (b : bool) (w : World) : World :=
  mkWorld (mkQueue (options (st w)) b (items (st w)) (running (st w)))
          (ticks w) (inflight w).

Definition set_items (l : list value) (w : World) : World :=
  mkWorld (mkQueue (options (st w)) (isClosed (st w)) l (running (st w)))
          (ticks w) (inflight w).

Definition set_running (r : Z) (w : World) : World :=
  mkWorld (mkQueue (options (st w)) (isClosed (st w)) (items (st w)) r)
          (ticks w) (inflight w).

Definition set_ticks (n : nat) (w : World) : World :=
  mkWorld (st w) n (inflight w).

Definition set_inflight (n : nat) (w : World) : World :=
  mkWorld (st w) (ticks w) n.

Definition limit (w : World) : number := concurrency (options (st w)).

Definition is_nil {A : Type} (l : list A) : bool :=
  match l with [] => true | _ => false end.

(** ** The dispatch loop *)

(** [function work()]: the admission gate, then one dispatch.  The worker
    is called as a method of [options] ([options.worker(item, handler)]),
    and so is the callback in the handler and in [close]: what user code
    can do to the configuration through [this] is not part of [work]; it
    is the [write] of an [action], below. *)
Definition work (w : World) : World * list call :=
  if ge_js (running (st w)) (limit w) || is_nil (items (st w)) then (w, [])
  else
    match items (st w) with
    | [] => (w, [])
    | item :: rest =>
        (set_inflight (S (inflight w))
           (set_items rest (set_running (running (st w) + 1) w)),
         [WorkerCall (worker (options (st w))) item])
    end.

(** The completion handler [function (err) { ... }] that [work] passes to
    the worker. *)
Definition handler (err : value) (w : World) : World * list call :=
  if truthy err then
    (set_items [] (set_isClosed true w),
     [CallbackCall (callback (options (st w))) [err]])
  else
    let w1 := set_running (running (st w) - 1) w in
    if isClosed (st w1) && is_nil (items (st w1)) && (running (st w1) =? 0)
    then (w1, [CallbackCall (callback (options (st w1))) []])
    else work w1.

(** ** The methods of the queue object *)

Definition returns (w : World) (r : retval) : Res := mkRes w [] r.

(** [queue.worker] *)
Definition worker_m (args : list value) (w : World) : Res :=
  match args with
  | [] => returns w (RetValue (worker (options (st w))))
  | v :: _ =>
      if is_function v
      then returns (set_options (mkOptions (concurrency (options (st w))) v
                                           (callback (options (st w)))) w)
                   RetQueue
      else returns w RetQueue
  end.

(** [queue.callback] *)
Definition callback_m (args : list value) (w : World) : Res :=
  match args with
  | [] => returns w (RetValue (callback (options (st w))))
  | v :: _ =>
      if is_function v
      then returns (set_options (mkOptions (concurrency (options (st w)))
                                           (worker (options (st w))) v) w)
                   RetQueue
      else returns w RetQueue
  end.

(** [queue.concurrency] *)
Definition concurrency_m (args : list value) (w : World) : Res :=
  match args with
  | [] => returns w (RetValue (VNum (concurrency (options (st w)))))
  | VNum n :: _ =>
      returns (set_options (mkOptions n (worker (options (st w)))
                                      (callback (options (st w)))) w)
              RetQueue
  | _ :: _ => returns w RetQueue
  end.

(** [queue.add] *)
Definition add_m (args : list value) (w : World) : Res :=
  if negb (isClosed (st w))
  then returns (set_ticks (S (ticks w))
                  (set_items (items (st w) ++ [arg0 args]) w))
               RetQueue
  else returns w RetQueue.

(** [queue.clear] *)
Definition clear_m (args : list value) (w : World) : Res :=
  returns (set_items [] w) RetQueue.

(** [queue.open] *)
Definition open_m (args : list value) (w : World) : Res :=
  returns (set_ticks (S (ticks w)) (set_isClosed false w)) RetQueue.

(** [queue.close] *)
Definition close_m (args : list value) (w : World) : Res :=
  let w1 := set_isClosed true w in
  if (running (st w1) =? 0) && is_nil (items (st w1))
  then mkRes w1 [CallbackCall (callback (options (st w1))) []] RetQueue
  else mkRes w1 [] RetQueue.

(** [queue.isClosed] *)
Definition isClosed_m (args : list value) (w : World) : Res :=
  returns w (RetValue (VBool (isClosed (st w)))).

(** The own keys of [options], in the order [for ... in] visits them. *)
Definition option_keys : list string :=
  ["concurrency"%string; "worker"%string; "callback"%string].

(** [queue[optionKey](v)] for one of the three keys. *)
Definition setter (k : string) (v : value) (w : World) : World :=
  if String.eqb k "concurrency" then next (concurrency_m [v] w)
  else if String.eqb k "worker" then next (worker_m [v] w)
  else if String.eqb k "callback" then next (callback_m [v] w)
  else w.

(** The shallow copy the getter form of [options] returns. *)
Definition options_copy (w : World) : value :=
  VObj [("concurrency"%string, VNum (concurrency (options (st w))));
        ("worker"%string, worker (options (st w)));
        ("callback"%string, callback (options (st w)))].

(** [queue.options]: [newOptions.hasOwnProperty] throws on [undefined]
    and [null], in the first iteration.  The objects of the fragment are
    meant without an own property named [hasOwnProperty]: on an argument
    that hides the method the source throws, or calls what hides it, and
    the definition below does not follow it there. *)
Definition options_m (args : list value) (w : World) : outcome :=
  match args with
  | [] => Returns (returns w (RetValue (options_copy w)))
  | VUndefined :: _ | VNull :: _ => Throws
  | o :: _ =>
      Returns (returns
        (fold_left (fun acc k => if has_own o k then setter k (get_prop o k) acc
                                 else acc)
                   option_keys w)
        RetQueue)
  end.

(** ** Construction *)

Definition fresh : World :=
  mkWorld (mkQueue (mkOptions (Fin 10) noop noop) false [] 0) 0%nat 0%nat.

(** [module.exports = function (initialOptions)]: [None] when the call
    throws. *)
Definition create (args : list value) : option World :=
  match args with
  | [] => Some fresh
  | v :: _ =>
      match options_m [v] fresh with
      | Returns r => Some (next r)
      | Throws => None
      end
  end.

(** ** Executions *)

Inductive method : Type :=
| MWorker | MCallback | MConcurrency | MAdd | MClear | MOpen | MClose
| MIsClosed | MOptions.

Definition invoke (m : method) (args : list value) (w : World) : outcome :=
  match m with
  | MWorker => Returns (worker_m args w)
  | MCallback => Returns (callback_m args w)
  | MConcurrency => Returns (concurrency_m args w)
  | MAdd => Returns (add_m args w)
  | MClear => Returns (clear_m args w)
  | MOpen => Returns (open_m args w)
  | MClose => Returns (close_m args w)
  | MIsClosed => Returns (isClosed_m args w)
  | MOptions => options_m args w
  end.

(** What can happen to a queue: a method call, the event loop running
    one scheduled [work], a worker invoking the completion handler it was
    given. *)
Inductive event : Type :=
| Call (m : method) (args : list value)
| Tick
| Done (err : value).

(** One event.  [None] when the event cannot happen: no [work] is
    scheduled, or no completion handler is outstanding (each worker
    invokes the handler it received once).  A call that throws leaves the
    world as it was. *)
Definition step (w : World) (e : event) : option (World * list call) :=
  match e with
  | Call m args =>
      match invoke m args w with
      | Returns r => Some (next r, calls r)
      | Throws => Some (w, [])
      end
  | Tick =>
      match ticks w with
      | O => None
      | S n => Some (work (set_ticks n w))
      end
  | Done err =>
      match inflight w with
      | O => None
      | S n => Some (handler err (set_inflight n w))
      end
  end.

Fixpoint run (w : World) (evs : list event) : option (World * list call) :=
  match evs with
  | [] => Some (w, [])
  | e :: rest =>
      match step w e with
      | None => None
      | Some (w1, cs1) =>
          match run w1 rest with
          | None => None
          | Some (w2, cs2) => Some (w2, cs1 ++ cs2)
          end
      end
  end.

(** ** User code holding the options object

    [work], the completion handler and [close] call user code as a method
    of [options] ([options.worker(item, handler)], [options.callback(...)]):
    inside the worker and the callback [this] is the options object, and
    an assignment to [this.concurrency], [this.worker] or [this.callback]
    writes it without going through a setter and its [typeof] guard.  User
    code being called in tail position, such an assignment is one more
    atomic event.

    The record keeps a number as the concurrency: an assignment of a value
    of another type to [this.concurrency], the deletion of a key and an
    accessor defined in its place are not represented.  A call whose
    callee is not a function stands for the TypeError the source raises at
    that point; nothing of the queue's code runs after it. *)
Inductive write : Type :=
| WConcurrency (n : number)   (* this.concurrency = n *)
| WWorker (v : value)         (* this.worker = v *)
| WCallback (v : value).      (* this.callback = v *)

Definition store (x : write) (w : World) : World :=
  match x with
  | WConcurrency n =>
      set_options (mkOptions n (worker (options (st w)))
                             (callback (options (st w)))) w
  | WWorker v =>
      set_options (mkOptions (concurrency (options (st w))) v
                             (callback (options (st w)))) w
  | WCallback v =>
      set_options (mkOptions (concurrency (options (st w)))
                             (worker (options (st w))) v) w
  end.

(** What can happen to a queue whose user code writes to [this]: an event
    of the queue, or a write. *)
Inductive action : Type :=
| Does (e : event)
| Writes (x : write).

Definition act (w : World) (a : action) : option (World * list call) :=
  match a with
  | Does e => step w e
  | Writes x => Some (store x w, [])
  end.

Fixpoint perform (w : World) (acts : list action)
  : option (World * list call) :=
  match acts with
  | [] => Some (w, [])
  | a :: rest =>
      match act w a with
      | None => None
      | Some (w1, cs1) =>
          match perform w1 rest with
          | None => None
          | Some (w2, cs2) => Some (w2, cs1 ++ cs2)
          end
      end
  end.

(** ** Reading a trace of calls *)

(** The items handed to the worker, in dispatch order. *)
Fixpoint worker_items (cs : list call) : list value :=
  match cs with
  | [] => []
  | WorkerCall _ item :: rest => item :: worker_items rest
  | CallbackCall _ _ :: rest => worker_items rest
  end.

(** The argument lists of the completion callback's invocations. *)
Fixpoint callback_args (cs : list call) : list (list value) :=
  match cs with
  | [] => []
  | WorkerCall _ _ :: rest => callback_args rest
  | CallbackCall _ args :: rest => args :: callback_args rest
  end.

(** Invocations [callback()] (a drain) and [callback(err)] (an abort). *)
Definition drain_calls (cs : list call) : list (list value) :=
  filter (fun a => is_nil a) (callback_args cs).

Definition abort_calls (cs : list call) : list (list value) :=
  filter (fun a => negb (is_nil a)) (callback_args cs).

(** The truthy errors workers report in a sequence of events. *)
Fixpoint reported_errors (evs : list event) : list (list value) :=
  match evs with
  | [] => []
  | Done err :: rest =>
      if truthy err then [err] :: reported_errors rest
      else reported_errors rest
  | _ :: rest => reported_errors rest
  end.

(** ** The paths through one step *)

(** The number an event stores in [options.concurrency], if it stores
    one: [concurrency(n)] and [options({concurrency: n})] with [n] of type
    number (any other value is ignored by the setter). *)
Definition new_limit (e : event) : option number :=
  match e with
  | Call MConcurrency (VNum n :: _) => Some n
  | Call MOptions (o :: _) =>
      if has_own o "concurrency"
      then match get_prop o "concurrency" with
           | VNum n => Some n
           | _ => None
           end
      else None
  | _ => None
  end.

Definition limit_after (e : event) (w : World) : number :=
  match new_limit e with
  | Some n => n
  | None => limit w
  end.

(** The methods that can only touch the configuration. *)
Definition config_method (m : method) : bool :=
  match m with
  | MWorker | MCallback | MConcurrency | MIsClosed | MOptions => true
  | MAdd | MClear | MOpen | MClose => false
  end.

(** The state after [work] went through the gate. *)
Definition dispatched (rest : list value) (w : World) : World :=
  set_inflight (S (inflight w))
    (set_items rest (set_running (running (st w) + 1) w)).

(** The cases of [step], one constructor per path through the code. *)
Inductive Step (w : World) : event -> World -> list call -> Prop :=
| Step_config : forall m args o,
    config_method m = true ->
    concurrency o = limit_after (Call m args) w ->
    Step w (Call m args) (set_options o w) []
| Step_add_open : forall args,
    isClosed (st w) = false ->
    Step w (Call MAdd args)
         (set_ticks (S (ticks w)) (set_items (items (st w) ++ [arg0 args]) w)) []
| Step_add_closed : forall args,
    isClosed (st w) = true ->
    Step w (Call MAdd args) w []
| Step_clear : forall args,
    Step w (Call MClear args) (set_items [] w) []
| Step_open : forall args,
    Step w (Call MOpen args) (set_ticks (S (ticks w)) (set_isClosed false w)) []
| Step_close_idle : forall args,
    running (st w) = 0 -> items (st w) = [] ->
    Step w (Call MClose args) (set_isClosed true w)
         [CallbackCall (callback (options (st w))) []]
| Step_close_busy : forall args,
    running (st w) <> 0 \/ items (st w) <> [] ->
    Step w (Call MClose args) (set_isClosed true w) []
| Step_tick_skip : forall n,
    ticks w = S n ->
    ge_js (running (st w)) (limit w) = true \/ items (st w) = [] ->
    Step w Tick (set_ticks n w) []
| Step_tick_dispatch : forall n item rest,
    ticks w = S n ->
    ge_js (running (st w)) (limit w) = false ->
    items (st w) = item :: rest ->
    Step w Tick (dispatched rest (set_ticks n w))
         [WorkerCall (worker (options (st w))) item]
| Step_done_error : forall n err,
    inflight w = S n ->
    truthy err = true ->
    Step w (Done err) (set_items [] (set_isClosed true (set_inflight n w)))
         [CallbackCall (callback (options (st w))) [err]]
| Step_done_drain : forall n err,
    inflight w = S n ->
    truthy err = false ->
    isClosed (st w) = true -> items (st w) = [] -> running (st w) - 1 = 0 ->
    Step w (Done err) (set_running (running (st w) - 1) (set_inflight n w))
         [CallbackCall (callback (options (st w))) []]
| Step_done_skip : forall n err,
    inflight w = S n ->
    truthy err = false ->
    isClosed (st w) = false \/ running (st w) - 1 <> 0 \/ items (st w) <> [] ->
    ge_js (running (st w) - 1) (limit w) = true \/ items (st w) = [] ->
    Step w (Done err) (set_running (running (st w) - 1) (set_inflight n w)) []
| Step_done_dispatch : forall n err item rest,
    inflight w = S n ->
    truthy err = false ->
    ge_js (running (st w) - 1) (limit w) = false ->
    items (st w) = item :: rest ->
    Step w (Done err)
         (dispatched rest (set_running (running (st w) - 1) (set_inflight n w)))
         [WorkerCall (worker (options (st w))) item].

(** ** Vocabulary: epochs of the completion callback *)

Definition is_open (e : event) : bool :=
  match e with Call MOpen _ => true | _ => false end.

Definition is_close (e : event) : bool :=
  match e with Call MClose _ => true | _ => false end.

Definition opens (evs : list event) : nat := List.length (filter is_open evs).
Definition closes (evs : list event) : nat := List.length (filter is_close evs).

(** Every completion handler still outstanding is counted in [running]:
    holds from construction on, whatever happens. *)
Definition counted (w : World) : Prop :=
  Z.of_nat (inflight w) <= running (st w).

(** Two workers in flight that both report an error: one epoch, two
    invocations. *)
Definition two_errors : list event :=
  [Call MAdd [VStr "a"]; Call MAdd [VStr "b"]; Tick; Tick;
   Done (VStr "e1"); Done (VStr "e2")].

(** An earlier epoch that ended in an abort, and the queue reopened. *)
Definition aborted_and_reopened : list event :=
  [Call MAdd [VStr "x"]; Tick; Done (VStr "e0"); Call MOpen []].

(** An abort followed by the successful completion of the other worker
    in flight and by a [close()]. *)
Definition error_then_success : list event :=
  [Call MAdd [VStr "a"]; Call MAdd [VStr "b"]; Tick; Tick;
   Done (VStr "e1"); Done VUndefined; Call MClose []].

(** ** Vocabulary: the running count and the concurrency limit *)

(** [r <= c] for an integer counter [r] and a number [c]. *)
Definition le_js (r : Z) (c : number) : bool :=
  match c with
  | Fin q => Qle_bool (inject_Z r) q
  | PosInf => true
  | NegInf => false
  | NaN => false
  end.

(** An integer-valued number, or [Infinity]. *)
Definition whole (c : number) : bool :=
  match c with
  | Fin q => Qeq_bool q (inject_Z (Qfloor q))
  | PosInf => true
  | NegInf => false
  | NaN => false
  end.

(** An event that stores a concurrency keeps the bound when the number
    is whole and not below the running count at that moment. *)
Definition keeps_bound (w : World) (e : event) : bool :=
  match new_limit e with
  | Some c => whole c && le_js (running (st w)) c
  | None => true
  end.

(** The number an action stores as the concurrency, if it stores one:
    through a setter, or by a write to [this.concurrency]. *)
Definition stored_limit (a : action) : option number :=
  match a with
  | Does e => new_limit e
  | Writes (WConcurrency n) => Some n
  | Writes _ => None
  end.

Definition keeps_limit (w : World) (a : action) : bool :=
  match stored_limit a with
  | Some c => whole c && le_js (running (st w)) c
  | None => true
  end.

(** Every concurrency stored in the course of [acts], by the queue's
    methods or by user code, is whole and not below the running count of
    the moment. *)
Fixpoint never_under (w : World) (acts : list action) : bool :=
  match acts with
  | [] => true
  | a :: rest =>
      keeps_limit w a &&
      match act w a with
      | Some (w1, _) => never_under w1 rest
      | None => true
      end
  end.

(** Lowering the limit under the running count. *)
Definition lowered_mid_run : list event :=
  [Call MAdd [VStr "a"]; Call MAdd [VStr "b"]; Tick; Tick;
   Call MConcurrency [VNum (Fin 1)]].

(** A limit between two integers. *)
Definition fractional_limit : list event :=
  [Call MConcurrency [VNum (Fin (3 # 2))]; Call MAdd [VStr "a"];
   Call MAdd [VStr "b"]; Tick; Tick].

(** Raising the limit while one item is running: by [options()], then
    by a write of the worker to [this.concurrency]. *)
Definition raised_mid_run : list action :=
  [Does (Call MConcurrency [VNum (Fin 1)]); Does (Call MAdd [VStr "a"]);
   Does (Call MAdd [VStr "b"]); Does (Call MAdd [VStr "c"]);
   Does Tick; Does Tick;
   Does (Call MOptions [VObj [("concurrency"%string, VNum (Fin 2))]]);
   Does (Done VUndefined); Writes (WConcurrency (Fin 3)); Does Tick].

(** A worker that lowers [this.concurrency] under the running count. *)
Definition lowered_by_worker : list action :=
  [Does (Call MAdd [VStr "a"]); Does (Call MAdd [VStr "b"]);
   Does Tick; Does Tick; Writes (WConcurrency (Fin 1))].

Definition bounded (w : World) : Prop :=
  whole (limit w) = true /\ le_js (running (st w)) (limit w) = true /\
  counted w.

(** ** Vocabulary: a limit that lets nothing through *)

(** The events that throw pending items away: [clear()] and a
    worker-reported error. *)
Definition discards (e : event) : bool :=
  match e with
  | Call MClear _ => true
  | Done err => truthy err
  | _ => false
  end.

Definition blocked_setup : list event :=
  [Call MAdd [VStr "a"]; Call MAdd [VStr "b"]; Tick;
   Call MConcurrency [VNum (Fin (-1 # 2))]].

Definition blocked_run : list event :=
  [Tick; Done VUndefined; Call MClose []].

(** ** Vocabulary: dispatch order *)

(** The nominal life of a queue: items are added, the queue is closed,
    scheduled dispatch attempts run, workers complete without error. *)
Definition nominal (e : event) : bool :=
  match e with
  | Call MAdd _ | Call MClose _ | Tick => true
  | Done err => negb (truthy err)
  | _ => false
  end.

(** What the environment does on its own: the event loop runs a scheduled
    [work], a worker calls [done()]. *)
Definition progress (e : event) : bool :=
  match e with
  | Tick => true
  | Done VUndefined => true
  | _ => false
  end.

(** The items of the [add] calls made before [close], in call order
    ([closed] tells whether the queue is already closed). *)
Fixpoint added (closed : bool) (evs : list event) : list value :=
  match evs with
  | [] => []
  | Call MAdd args :: rest =>
      if closed then added closed rest else arg0 args :: added closed rest
  | Call MClose _ :: rest => added true rest
  | _ :: rest => added closed rest
  end.

(** What is left to do: every [progress] event uses some of it up. *)
Definition backlog (w : World) : nat :=
  (ticks w + inflight w + 2 * List.length (items (st w)))%nat.

(** Without errors every outstanding handler accounts for one running
    item, the gate lets a first item through, and pending items always
    have a dispatch attempt or a completion ahead of them. *)
Definition on_track (w : World) : Prop :=
  running (st w) = Z.of_nat (inflight w) /\
  ge_js 0 (limit w) = false /\
  (items (st w) <> [] -> (0 < ticks w)%nat \/ (0 < inflight w)%nat).

(** The closed flag after an action: [close()] and a worker-reported
    error set it, [open()] clears it. *)
Definition flag_next (closed : bool) (a : action) : bool :=
  match a with
  | Does (Call MClose _) => true
  | Does (Call MOpen _) => false
  | Does (Done err) => if truthy err then true else closed
  | _ => closed
  end.

(** The items of the [add] calls made while the queue is open (before a
    [close()], or after a later [open()]), in call order. *)
Fixpoint accepted (closed : bool) (acts : list action) : list value :=
  match acts with
  | [] => []
  | a :: rest =>
      match a with
      | Does (Call MAdd args) => if closed then [] else [arg0 args]
      | _ => []
      end ++ accepted (flag_next closed a) rest
  end.

(** An orderly life: no pending item is thrown away (no [clear()], no
    worker-reported error), no concurrency is stored that shuts the gate
    on an idle queue, and what user code stores as [this.worker] is a
    function. *)
Definition orderly (a : action) : bool :=
  match stored_limit a with
  | Some c => negb (ge_js 0 c)
  | None => true
  end &&
  match a with
  | Does e => negb (discards e)
  | Writes (WWorker v) => is_function v
  | Writes _ => true
  end.

(** A call of the worker goes to a function. *)
Definition worker_call_ok (c : call) : bool :=
  match c with
  | WorkerCall f _ => is_function f
  | CallbackCall _ _ => true
  end.

(** Two items under a limit of 1; the worker of the first reports an
    error. *)
Definition failed_midway : list action :=
  [Does (Call MConcurrency [VNum (Fin 1)]); Does (Call MAdd [VStr "a"]);
   Does (Call MAdd [VStr "b"]); Does (Call MClose []); Does Tick; Does Tick;
   Does (Done (VStr "boom"))].

(** Setters, a write through [this], a close and a reopening in the
    middle of the work. *)
Definition orderly_life : list action :=
  [Does (Call MConcurrency [VNum (Fin 1)]); Does (Call MAdd [VStr "a"]);
   Does (Call MAdd [VStr "b"]); Does Tick; Writes (WConcurrency (Fin 2));
   Does (Call MClose []); Does (Call MAdd [VStr "late"]);
   Does (Call MOpen []); Does (Call MAdd [VStr "c"]);
   Does (Done VUndefined)].

(** ** The earlier revision of the module (src/queue.js)

    The file queue.js exports [create] and keeps the closed flag inside
    [options]; its [close] only sets the flag.  It has no [isClosed]
    method, and the test suite and the rest of this development follow
    the later revision. *)
Module Legacy.

Record Options : Type := mkOptions {
  closed : bool;          (* by default the queue is open *)
  concurrency : number;   (* task concurrency limit *)
  worker : value;         (* worker function to run for every queue item *)
  callback : value        (* callback to issue on queue completion *)
}.

Record Queue : Type := mkQueue {
  options : Options;
  items : list value;     (* container of items to process *)
  running : Z             (* count of currently running items *)
}.

(** [queue.close] of queue.js. *)
Definition close (q : Queue) : Queue * list call :=
  (mkQueue (mkOptions true (concurrency (options q)) (worker (options q))
                      (callback (options q)))
           (items q) (running q),
   []).

(** The queue of queue.js with its environment, as for the later
    revision. *)
Record World : Type := mkWorld {
  st : Queue;
  ticks : nat;
  inflight : nat
}.

Definition set_closed (b : bool) (w : World) : World :=
  mkWorld (mkQueue (mkOptions b (concurrency (options (st w)))
                              (worker (options (st w)))
                              (callback (options (st w))))
                   (items (st w)) (running (st w)))
          (ticks w) (inflight w).

Definition set_items (l : list value) (w : World) : World :=
  mkWorld (mkQueue (options (st w)) l (running (st w))) (ticks w) (inflight w).

Definition set_running (r : Z) (w : World) : World :=
  mkWorld (mkQueue (options (st w)) (items (st w)) r) (ticks w) (inflight w).

Definition set_ticks (n : nat) (w : World) : World :=
  mkWorld (st w) n (inflight w).

Definition set_inflight (n : nat) (w : World) : World :=
  mkWorld (st w) (ticks w) n.

(** [function work()] of queue.js. *)
Definition work (w : World) : World * list call :=
  if ge_js (running (st w)) (concurrency (options (st w)))
     || is_nil (items (st w))
  then (w, [])
  else
    match items (st w) with
    | [] => (w, [])
    | item :: rest =>
        (set_inflight (S (inflight w))
           (set_items rest (set_running (running (st w) + 1) w)),
         [WorkerCall (worker (options (st w))) item])
    end.

(** The completion handler [work] passes to the worker. *)
Definition handler (err : value) (w : World) : World * list call :=
  if truthy err then
    (set_items [] (set_closed true w),
     [CallbackCall (callback (options (st w))) [err]])
  else
    let w1 := set_running (running (st w) - 1) w in
    if closed (options (st w1)) && is_nil (items (st w1))
       && (running (st w1) =? 0)
    then (w1, [CallbackCall (callback (options (st w1))) []])
    else work w1.

(** [queue.worker], [queue.callback], [queue.concurrency] of queue.js. *)
Definition worker_m (args : list value) (w : World) : World * retval :=
  match args with
  | [] => (w, RetValue (worker (options (st w))))
  | v :: _ =>
      if is_function v
      then (mkWorld (mkQueue (mkOptions (closed (options (st w)))
                                        (concurrency (options (st w))) v
                                        (callback (options (st w))))
                             (items (st w)) (running (st w)))
                    (ticks w) (inflight w), RetQueue)
      else (w, RetQueue)
  end.

Definition callback_m (args : list value) (w : World) : World * retval :=
  match args with
  | [] => (w, RetValue (callback (options (st w))))
  | v :: _ =>
      if is_function v
      then (mkWorld (mkQueue (mkOptions (closed (options (st w)))
                                        (concurrency (options (st w)))
                                        (worker (options (st w))) v)
                             (items (st w)) (running (st w)))
                    (ticks w) (inflight w), RetQueue)
      else (w, RetQueue)
  end.

Definition concurrency_m (args : list value) (w : World) : World * retval :=
  match args with
  | [] => (w, RetValue (VNum (concurrency (options (st w)))))
  | VNum n :: _ =>
      (mkWorld (mkQueue (mkOptions (closed (options (st w))) n
                                   (worker (options (st w)))
                                   (callback (options (st w))))
                        (items (st w)) (running (st w)))
               (ticks w) (inflight w), RetQueue)
  | _ :: _ => (w, RetQueue)
  end.

(** [queue.add], [queue.clear], [queue.open] of queue.js. *)
Definition add_m (args : list value) (w : World) : World * retval :=
  if negb (closed (options (st w)))
  then (set_ticks (S (ticks w)) (set_items (items (st w) ++ [arg0 args]) w),
        RetQueue)
  else (w, RetQueue).

Definition clear_m (args : list value) (w : World) : World * retval :=
  (set_items [] w, RetQueue).

Definition open_m (args : list value) (w : World) : World * retval :=
  (set_ticks (S (ticks w)) (set_closed false w), RetQueue).

(** [queue.close] on the queue in its environment. *)
Definition close_m (args : list value) (w : World) : World * list call * retval :=
  (mkWorld (fst (close (st w))) (ticks w) (inflight w), snd (close (st w)),
   RetQueue).

(** The methods of queue.js but [options] (its [for ... in] over the
    argument and its test on [queue[optionName]] are left out). *)
Inductive method : Type :=
| LWorker | LCallback | LConcurrency | LAdd | LClear | LOpen | LClose.

Inductive event : Type :=
| LCall (m : method) (args : list value)
| LTick
| LDone (err : value).

Definition step (w : World) (e : event) : option (World * list call) :=
  match e with
  | LCall LWorker args => Some (fst (worker_m args w), [])
  | LCall LCallback args => Some (fst (callback_m args w), [])
  | LCall LConcurrency args => Some (fst (concurrency_m args w), [])
  | LCall LAdd args => Some (fst (add_m args w), [])
  | LCall LClear args => Some (fst (clear_m args w), [])
  | LCall LOpen args => Some (fst (open_m args w), [])
  | LCall LClose args => Some (fst (close_m args w))
  | LTick =>
      match ticks w with
      | O => None
      | S n => Some (work (set_ticks n w))
      end
  | LDone err =>
      match inflight w with
      | O => None
      | S n => Some (handler err (set_inflight n w))
      end
  end.

Fixpoint run (w : World) (evs : list event) : option (World * list call) :=
  match evs with
  | [] => Some (w, [])
  | e :: rest =>
      match step w e with
      | None => None
      | Some (w1, cs1) =>
          match run w1 rest with
          | None => None
          | Some (w2, cs2) => Some (w2, cs1 ++ cs2)
          end
      end
  end.

(** The queue [exports.create()] returns when called without options:
    [queue.options(undefined)] loops over nothing. *)
Definition fresh : World :=
  mkWorld (mkQueue (mkOptions false (Fin 10) noop noop) [] 0) 0%nat 0%nat.

Definition is_open (e : event) : bool :=
  match e with LCall LOpen _ => true | _ => false end.

End Legacy.

(** ** Vocabulary: further properties of executions *)

(** The closed flag after a sequence of events, from the flag before:
    [close()] and a worker-reported error set it, [open()] clears it. *)
Fixpoint flag_after (c : bool) (evs : list event) : bool :=
  match evs with
  | [] => c
  | Call MClose _ :: rest => flag_after true rest
  | Call MOpen _ :: rest => flag_after false rest
  | Done err :: rest => flag_after (if truthy err then true else c) rest
  | _ :: rest => flag_after c rest
  end.





(** A worker that writes a number to [this.callback] and then reports an
    error. *)
Definition callback_overwritten : list action :=
  [Does (Call MAdd [VStr "a"]); Does Tick; Writes (WCallback (VNum (Fin 42)));
   Does (Done (VStr "e"))].

(** An abort with two workers in flight, the queue reopened, more work
    done. *)
Definition abort_reopen : list event :=
  [Call MAdd [VStr "a"]; Call MAdd [VStr "b"]; Tick; Tick;
   Done (VStr "e1"); Call MOpen []; Call MAdd [VStr "c"]; Tick; Tick;
   Done VUndefined; Done VUndefined; Call MClose []].

(** Two items dispatched, both still running. *)
Definition two_in_flight : list event :=
  [Call MAdd [VStr "a"]; Call MAdd [VStr "b"]; Tick; Tick].

(** What follows an abort here: the queue is reopened, a third item runs,
    the two workers left complete, the queue is closed. *)
Definition reopened_after_abort : list event :=
  [Call MOpen []; Call MAdd [VStr "c"]; Tick; Tick;
   Done VUndefined; Done VUndefined; Call MClose []].

(** Both workers in flight report an error. *)
Definition both_fail : list event :=
  two_in_flight ++ [Done (VStr "e1"); Done (VStr "e2")].

(** Three items, the third added while the first runs, the queue closed
    and everything completed. *)
Definition whole_life : list event :=
  [Call MAdd [VStr "a"]; Call MAdd [VStr "b"]; Tick; Call MAdd [VStr "c"];
   Call MClose []; Call MAdd [VStr "late"]; Done VUndefined;
   Tick; Done VUndefined; Tick; Done VUndefined].

(** The configuration [options(o)] leaves: each of the three options is
    replaced by the property of [o] of that name when it has the type the
    setter asks for, and kept otherwise. *)
Definition merged (o : value) (cur : Options) : Options :=
  mkOptions
    (match get_prop o "concurrency" with
     | VNum n => n
     | _ => concurrency cur
     end)
    (if is_function (get_prop o "worker") then get_prop o "worker"
     else worker cur)
    (if is_function (get_prop o "callback") then get_prop o "callback"
     else callback cur).

(** [undefined] or [null]. *)
Definition nullish (v : value) : bool :=
  match v with
  | VUndefined | VNull => true
  | _ => false
  end.

(** The test suite's options. *)
Definition validOptions : value :=
  VObj [("concurrency"%string, VNum (Fin 3));
        ("callback"%string, VFun 1);
        ("worker"%string, VFun 2)].

Definition bogusOptions : value :=
  VObj [("foo"%string, VStr "bar"); ("theAnswer"%string, VNum (Fin 42))].

(** [l1] is [l2] with some elements left out, order kept. *)
Inductive subseq {A : Type} : list A -> list A -> Prop :=
| subseq_nil : subseq [] []
| subseq_skip : forall x l1 l2, subseq l1 l2 -> subseq l1 (x :: l2)
| subseq_keep : forall x l1 l2, subseq l1 l2 -> subseq (x :: l1) (x :: l2).

(** The values passed to [add], in call order, accepted or not. *)
Fixpoint add_args (evs : list event) : list value :=
  match evs with
  | [] => []
  | Call MAdd args :: rest => arg0 args :: add_args rest
  | _ :: rest => add_args rest
  end.

(** Not yet both closed and idle. *)
Definition undone (w : World) : Prop :=
  isClosed (st w) = false \/ items (st w) <> [] \/ running (st w) <> 0.

(** A busy life: items added and cleared, the queue closed and reopened,
    an abort. *)
Definition busy_life : list event :=
  [Call MAdd [VStr "a"]; Call MAdd [VStr "b"]; Call MAdd [VStr "c"]; Tick;
   Call MClear []; Call MAdd [VStr "d"]; Call MClose [];
   Call MAdd [VStr "e"]; Done VUndefined; Call MOpen [];
   Call MAdd [VStr "f"]; Tick; Tick; Tick; Done (VStr "boom");
   Call MAdd [VStr "g"]].

(** Closing before anything was dispatched. *)
Definition add_then_close : list event :=
  [Call MAdd [VStr "a"]; Call MClose []].

(** One item running under a limit of 1, one pending. *)
Definition one_running_one_pending : list event :=
  [Call MConcurrency [VNum (Fin 1)]; Call MAdd [VStr "a"];
   Call MAdd [VStr "b"]; Tick].

Definition close_and_finish : list event :=
  [Call MClose []; Tick; Done VUndefined].

Definition one_running_world : World :=
  mkWorld (mkQueue (mkOptions (Fin 1) noop noop) false [VStr "b"] 1)
          1%nat 1%nat.

(** A closed queue with one item pending and nothing running. *)
Definition closed_with_pending : World :=
  mkWorld (mkQueue (mkOptions (Fin 10) noop noop) true [VStr "a"] 0)
          1%nat 0%nat.

Definition after_the_clear : list event :=
  [Tick; Call MAdd [VStr "b"]].

(** [add(x)] for each [x] of a list, in order. *)
Definition adds (its : list value) : list event :=
  map (fun x => Call MAdd [x]) its.

(** The state after [d] items of a world were dispatched and [m] scheduled
    dispatch attempts were used up. *)
Definition after_dispatching (d m : nat) (w : World) : World :=
  mkWorld (mkQueue (options (st w)) (isClosed (st w))
                   (skipn d (items (st w)))
                   (running (st w) + Z.of_nat d))
          (ticks w - m) (inflight w + d).

(** ** Vocabulary: the two revisions side by side *)

(** A state of the later revision, as the state of queue.js with the
    closed flag inside [options]. *)
Definition old (w : World) : Legacy.World :=
  Legacy.mkWorld
    (Legacy.mkQueue
       (Legacy.mkOptions (isClosed (st w)) (concurrency (options (st w)))
                         (worker (options (st w))) (callback (options (st w))))
       (items (st w)) (running (st w)))
    (ticks w) (inflight w).

(** An event of queue.js, as an event of the later revision. *)
Definition lift (e : Legacy.event) : event :=
  match e with
  | Legacy.LCall Legacy.LWorker args => Call MWorker args
  | Legacy.LCall Legacy.LCallback args => Call MCallback args
  | Legacy.LCall Legacy.LConcurrency args => Call MConcurrency args
  | Legacy.LCall Legacy.LAdd args => Call MAdd args
  | Legacy.LCall Legacy.LClear args => Call MClear args
  | Legacy.LCall Legacy.LOpen args => Call MOpen args
  | Legacy.LCall Legacy.LClose args => Call MClose args
  | Legacy.LTick => Tick
  | Legacy.LDone err => Done err
  end.

(** [close()] with nothing running and nothing pending. *)
Definition idle_close (w : World) (e : Legacy.event) : bool :=
  match e with
  | Legacy.LCall Legacy.LClose _ =>
      (running (st w) =? 0) && is_nil (items (st w))
  | _ => false
  end.

(** The calls to the worker among the calls of an execution. *)
Definition worker_calls (cs : list call) : list call :=
  filter (fun c => match c with WorkerCall _ _ => true | _ => false end) cs.

(** What a caller may try after closing a new queue of queue.js. *)
Definition after_idle_close : list Legacy.event :=
  [Legacy.LCall Legacy.LAdd [VStr "b"];
   Legacy.LCall Legacy.LClear []; Legacy.LCall Legacy.LClose []].

(** A queue given a completion callback and closed at once. *)
Definition legacy_configured_then_closed : list Legacy.event :=
  [Legacy.LCall Legacy.LCallback [VFun 1]; Legacy.LCall Legacy.LClose []].

(** * Properties *)

(** ** Single operations *)

Lemma worker_items_app : forall cs1 cs2,
  worker_items (cs1 ++ cs2) = worker_items cs1 ++ worker_items cs2.
Proof.
  induction cs1 as [|c cs1 IH]; intros cs2; simpl.
  - reflexivity.
  - destruct c; simpl; rewrite IH; reflexivity.
Qed.

Lemma callback_args_app : forall cs1 cs2,
  callback_args (cs1 ++ cs2) = callback_args cs1 ++ callback_args cs2.
Proof.
  induction cs1 as [|c cs1 IH]; intros cs2; simpl.
  - reflexivity.
  - destruct c; simpl; rewrite IH; reflexivity.
Qed.

Lemma drain_calls_app : forall cs1 cs2,
  drain_calls (cs1 ++ cs2) = drain_calls cs1 ++ drain_calls cs2.
Proof.
  intros; unfold drain_calls; rewrite callback_args_app; apply filter_app.
Qed.

Lemma abort_calls_app : forall cs1 cs2,
  abort_calls (cs1 ++ cs2) = abort_calls cs1 ++ abort_calls cs2.
Proof.
  intros; unfold abort_calls; rewrite callback_args_app; apply filter_app.
Qed.

(** The gate of [work]: at capacity or nothing pending, nothing happens. *)
Lemma work_gate_closed : forall w,
  ge_js (running (st w)) (limit w) = true \/ items (st w) = [] ->
  work w = (w, []).
Proof.
  intros w [H | H]; unfold work.
  - rewrite H; reflexivity.
  - rewrite H; simpl; rewrite orb_true_r; reflexivity.
Qed.

(** Through the gate, [work] dispatches the head item. *)
Lemma work_dispatch : forall w item rest,
  ge_js (running (st w)) (limit w) = false ->
  items (st w) = item :: rest ->
  work w =
    (set_inflight (S (inflight w))
       (set_items rest (set_running (running (st w) + 1) w)),
     [WorkerCall (worker (options (st w))) item]).
Proof.
  intros w item rest Hg Hi; unfold work; rewrite Hg, Hi; reflexivity.
Qed.

(** C2: a completion handler invoked with a truthy error closes the
    queue, empties the pending items and invokes the completion callback
    with exactly that error; the running count, the configuration and the
    scheduled dispatch attempts are untouched and the worker is not
    invoked. *)
Theorem handler_error_aborts : forall (err : value) (w : World),
  truthy err = true ->
  let w' := fst (handler err w) in
  snd (handler err w) = [CallbackCall (callback (options (st w))) [err]] /\
  isClosed (st w') = true /\
  items (st w') = [] /\
  running (st w') = running (st w) /\
  options (st w') = options (st w) /\
  ticks w' = ticks w /\
  worker_items (snd (handler err w)) = [].
Proof.
  intros err w Herr; unfold handler; rewrite Herr; simpl.
  repeat split; reflexivity.
Qed.

Lemma handler_error_aborts_witness :
  let w := mkWorld (mkQueue (mkOptions (Fin 2) (VFun 1) (VFun 2)) false
                            [VStr "c"] 2) 0%nat 1%nat in
  snd (handler (VStr "boom") w) = [CallbackCall (VFun 2) [VStr "boom"]] /\
  isClosed (st (fst (handler (VStr "boom") w))) = true /\
  items (st (fst (handler (VStr "boom") w))) = [] /\
  running (st (fst (handler (VStr "boom") w))) = 2.
Proof.
  intros w.
  destruct (handler_error_aborts (VStr "boom") w eq_refl)
    as (Hc & Hcl & Hit & Hr & _).
  repeat split; assumption.
Defined.

(** X28: in the later revision (src/unnamed/part_000) [close()] sets the
    closed flag and returns the queue; when nothing is running and
    nothing is pending it invokes the completion callback with no
    argument within the call, otherwise it invokes nothing. *)
Theorem close_closes_and_reports_idle : forall (args : list value) (w : World),
  let r := close_m args w in
  isClosed (st (next r)) = true /\
  ret r = RetQueue /\
  (running (st w) = 0 -> items (st w) = [] ->
   calls r = [CallbackCall (callback (options (st w))) []]) /\
  (running (st w) <> 0 \/ items (st w) <> [] -> calls r = []) /\
  next r = set_isClosed true w.
Proof.
  intros args w; unfold close_m; simpl.
  destruct (Z.eqb_spec (running (st w)) 0) as [Hr | Hr];
    destruct (items (st w)) as [|i l] eqn:Hi; simpl;
    repeat split; try reflexivity; try congruence;
    intros [H | H]; congruence.
Qed.

Lemma close_closes_and_reports_idle_witness :
  calls (close_m [] fresh) = [CallbackCall noop []] /\
  calls (close_m [] (set_items [VNull] fresh)) = [].
Proof.
  split.
  - apply (proj1 (proj2 (proj2 (close_closes_and_reports_idle [] fresh))));
      reflexivity.
  - apply (proj1 (proj2 (proj2 (proj2
             (close_closes_and_reports_idle [] (set_items [VNull] fresh)))))).
    right; discriminate.
Defined.

Lemma run_cons : forall w e evs,
  run w (e :: evs) =
  match step w e with
  | None => None
  | Some (w1, cs1) =>
      match run w1 evs with
      | None => None
      | Some (w2, cs2) => Some (w2, cs1 ++ cs2)
      end
  end.
Proof. reflexivity. Qed.

Lemma run_app : forall evs1 evs2 w,
  run w (evs1 ++ evs2) =
  match run w evs1 with
  | None => None
  | Some (w1, cs1) =>
      match run w1 evs2 with
      | None => None
      | Some (w2, cs2) => Some (w2, cs1 ++ cs2)
      end
  end.
Proof.
  induction evs1 as [|e evs1 IH]; intros evs2 w.
  - simpl. destruct (run w evs2) as [[w2 cs2]|]; reflexivity.
  - simpl. destruct (step w e) as [[w1 cs1]|]; [|reflexivity].
    rewrite IH. destruct (run w1 evs1) as [[w2 cs2]|]; [|reflexivity].
    destruct (run w2 evs2) as [[w3 cs3]|]; [|reflexivity].
    rewrite app_assoc; reflexivity.
Qed.

(** C6: [add(item)] on a closed queue changes nothing (no item retained,
    no dispatch attempt scheduled, no call to user code) and returns the
    queue, so whatever follows runs as if the call had not been made; on
    an open queue it appends the item at the tail of the pending items
    and returns the queue. *)
Theorem add_closed_noop_open_appends : forall (args : list value) (w : World),
  (isClosed (st w) = true ->
   add_m args w = mkRes w [] RetQueue /\
   forall evs, run w (Call MAdd args :: evs) = run w evs) /\
  (isClosed (st w) = false ->
   add_m args w =
     mkRes (set_ticks (S (ticks w)) (set_items (items (st w) ++ [arg0 args]) w))
           [] RetQueue).
Proof.
  intros args w; split; intros Hc.
  - assert (Ha : add_m args w = mkRes w [] RetQueue)
      by (unfold add_m; rewrite Hc; reflexivity).
    split; [exact Ha|].
    intros evs; rewrite run_cons; simpl; rewrite Ha; simpl.
    destruct (run w evs) as [[w2 cs2]|]; reflexivity.
  - unfold add_m; rewrite Hc; reflexivity.
Qed.

Lemma add_closed_noop_open_appends_witness :
  add_m [VStr "late"] (set_isClosed true fresh)
    = mkRes (set_isClosed true fresh) [] RetQueue /\
  items (st (next (add_m [VStr "b"] (set_items [VStr "a"] fresh))))
    = [VStr "a"; VStr "b"].
Proof.
  split.
  - apply (proj1 (add_closed_noop_open_appends [VStr "late"]
                    (set_isClosed true fresh))); reflexivity.
  - rewrite (proj2 (add_closed_noop_open_appends [VStr "b"]
                      (set_items [VStr "a"] fresh)) eq_refl); reflexivity.
Defined.

(** C7: [clear()] empties the pending items and nothing else: running
    count, closed flag, configuration, scheduled attempts and outstanding
    handlers are as before, user code is not called, the queue is
    returned, and a worker already dispatched can still complete. *)
Theorem clear_only_empties_pending : forall (args : list value) (w : World),
  let r := clear_m args w in
  items (st (next r)) = [] /\
  running (st (next r)) = running (st w) /\
  isClosed (st (next r)) = isClosed (st w) /\
  options (st (next r)) = options (st w) /\
  ticks (next r) = ticks w /\
  inflight (next r) = inflight w /\
  calls r = [] /\
  ret r = RetQueue /\
  (forall err, step w (Done err) <> None -> step (next r) (Done err) <> None).
Proof.
  intros args w; simpl; repeat split.
  intros err; simpl; destruct (inflight w); [intros H; exact H | discriminate].
Qed.

Lemma clear_only_empties_pending_witness :
  step (next (clear_m [] (mkWorld (mkQueue (mkOptions (Fin 1) noop noop)
                                           false [VNull] 1) 0%nat 1%nat)))
       (Done VUndefined) <> None.
Proof.
  apply (proj2 (proj2 (proj2 (proj2 (proj2 (proj2 (proj2 (proj2
          (clear_only_empties_pending []
             (mkWorld (mkQueue (mkOptions (Fin 1) noop noop) false [VNull] 1)
                      0%nat 1%nat)))))))))).
  discriminate.
Defined.

(** C8: [add] never calls the worker itself: on an open queue it only
    puts one more [work] on the next-tick queue, and the worker is called
    only when the event loop runs a scheduled [work] or a completion
    handler runs; every [work] re-checks capacity and pending items, so a
    redundant one changes nothing and calls nothing. *)
Theorem add_defers_dispatch : forall (args : list value) (w : World),
  calls (add_m args w) = [] /\
  (isClosed (st w) = false -> ticks (next (add_m args w)) = S (ticks w)) /\
  (forall m a w' cs, step w (Call m a) = Some (w', cs) -> worker_items cs = []) /\
  (ge_js (running (st w)) (limit w) = true \/ items (st w) = [] ->
   step (set_ticks (S (ticks w)) w) Tick = Some (w, [])).
Proof.
  intros args w; repeat split.
  - unfold add_m; destruct (negb (isClosed (st w))); reflexivity.
  - intros Hc; unfold add_m; rewrite Hc; reflexivity.
  - intros m a w' cs H; simpl in H.
    destruct m; simpl in H; try (injection H as <- <-);
      try (unfold worker_m, callback_m, concurrency_m, add_m, open_m;
           repeat match goal with
                  | |- context [match ?x with _ => _ end] => destruct x
                  end; reflexivity).
    + unfold close_m.
      destruct ((running (st (set_isClosed true w)) =? 0)
                && is_nil (items (st (set_isClosed true w)))); reflexivity.
    + destruct (options_m a w) as [r|] eqn:Ho; injection H as <- <-;
        [|reflexivity].
      unfold options_m in Ho.
      destruct a as [|[] a']; try discriminate; injection Ho as <-; reflexivity.
  - intros Hg; unfold step, set_ticks; cbn [ticks st inflight].
    replace (mkWorld (st w) (ticks w) (inflight w)) with w
      by (destruct w; reflexivity).
    rewrite (work_gate_closed w Hg); reflexivity.
Qed.

Lemma add_defers_dispatch_witness :
  ticks (next (add_m [VStr "a"] fresh)) = 1%nat /\
  step (set_ticks 1 fresh) Tick = Some (fresh, []).
Proof.
  destruct (add_defers_dispatch [VStr "a"] fresh) as (_ & Ht & _ & Hw).
  split; [apply Ht; reflexivity | apply Hw; right; reflexivity].
Defined.

(** C9: every [close()] made while nothing is running and nothing is
    pending invokes the completion callback, and leaves the queue in a
    state where the next [close()] does so again: two calls in a row on
    an idle queue invoke it twice. *)
Theorem close_idle_calls_back_each_time : forall (args1 args2 : list value) (w : World),
  running (st w) = 0 ->
  items (st w) = [] ->
  calls (close_m args1 w) = [CallbackCall (callback (options (st w))) []] /\
  running (st (next (close_m args1 w))) = 0 /\
  items (st (next (close_m args1 w))) = [] /\
  run w [Call MClose args1; Call MClose args2] =
    Some (set_isClosed true w,
          [CallbackCall (callback (options (st w))) [];
           CallbackCall (callback (options (st w))) []]).
Proof.
  intros args1 args2 w Hr Hi.
  destruct w as [[o c i r] t f]; simpl in Hr, Hi; subst.
  repeat split.
Qed.

Lemma close_idle_calls_back_each_time_witness :
  run fresh [Call MClose []; Call MClose []] =
    Some (set_isClosed true fresh, [CallbackCall noop []; CallbackCall noop []]).
Proof.
  apply (proj2 (proj2 (proj2
          (close_idle_calls_back_each_time [] [] fresh eq_refl eq_refl)))).
Defined.

(** ** Executions: shared facts *)

Lemma set_options_same : forall w, set_options (options (st w)) w = w.
Proof. intros [[o c i r] t f]; reflexivity. Qed.

Lemma setter_frame : forall k v w, exists o, setter k v w = set_options o w.
Proof.
  intros k v w; unfold setter.
  destruct (String.eqb k "concurrency").
  { destruct v; simpl; eauto using eq_sym, set_options_same. }
  destruct (String.eqb k "worker").
  { destruct v; simpl; eauto using eq_sym, set_options_same. }
  destruct (String.eqb k "callback").
  { destruct v; simpl; eauto using eq_sym, set_options_same. }
  eauto using eq_sym, set_options_same.
Qed.

Lemma set_options_twice : forall o1 o2 w,
  set_options o2 (set_options o1 w) = set_options o2 w.
Proof. reflexivity. Qed.

Lemma options_fold_frame : forall o keys w,
  exists o',
    fold_left (fun acc k => if has_own o k then setter k (get_prop o k) acc
                            else acc) keys w
    = set_options o' w.
Proof.
  intros o keys; induction keys as [|k keys IH]; intros w; simpl.
  - exists (options (st w)); symmetry; apply set_options_same.
  - destruct (has_own o k); [|apply IH].
    destruct (setter_frame k (get_prop o k) w) as [o1 ->].
    destruct (IH (set_options o1 w)) as [o2 ->].
    exists o2; apply set_options_twice.
Qed.

Lemma setter_limit : forall k v w,
  limit (setter k v w) =
  if String.eqb k "concurrency"
  then match v with VNum n => n | _ => limit w end
  else limit w.
Proof.
  intros k v w; unfold setter.
  destruct (String.eqb k "concurrency"); [destruct v; reflexivity|].
  destruct (String.eqb k "worker"); [destruct v; reflexivity|].
  destruct (String.eqb k "callback"); [destruct v; reflexivity|].
  reflexivity.
Qed.

Lemma options_fold_limit : forall o w,
  limit (fold_left (fun acc k => if has_own o k then setter k (get_prop o k) acc
                                 else acc) option_keys w)
  = limit_after (Call MOptions [o]) w.
Proof.
  intros o w; unfold option_keys, limit_after, new_limit; cbn [fold_left].
  repeat match goal with
         | |- context [if has_own o ?k then _ else _] =>
             destruct (has_own o k)
         end;
    rewrite ?setter_limit; cbn [String.eqb Ascii.eqb Bool.eqb];
    destruct (get_prop o "concurrency"); reflexivity.
Qed.

Lemma step_config : forall m args w w' cs,
  config_method m = true ->
  step w (Call m args) = Some (w', cs) ->
  cs = [] /\
  exists o, w' = set_options o w /\
            concurrency o = limit_after (Call m args) w.
Proof.
  intros m args w w' cs Hm H.
  assert (Hsame : exists o, w = set_options o w /\ concurrency o = limit w)
    by (exists (options (st w)); split;
        [symmetry; apply set_options_same | reflexivity]).
  destruct m; try discriminate Hm; simpl in H.
  - injection H as <- <-.
    destruct args as [|v args']; simpl;
      [|destruct (is_function v)]; simpl; split; eauto.
  - injection H as <- <-.
    destruct args as [|v args']; simpl;
      [|destruct (is_function v)]; simpl; split; eauto.
  - injection H as <- <-.
    destruct args as [|[] args']; simpl; split; eauto.
  - injection H as <- <-; simpl; split; eauto.
  - destruct (options_m args w) as [r|] eqn:Ho; injection H as <- <-.
    + unfold options_m in Ho.
      destruct args as [|o args']; [injection Ho as <-; simpl; split; eauto|].
      destruct (options_fold_frame o option_keys w) as [o' Hf].
      pose proof (options_fold_limit o w) as Hl; rewrite Hf in Hl.
      destruct o; try discriminate Ho; injection Ho as <-; simpl;
        (split; [reflexivity | exists o'; split; [exact Hf | exact Hl]]).
    + split; [reflexivity|].
      unfold options_m in Ho.
      destruct args as [|[] args']; try discriminate Ho; exact Hsame.
Qed.

Lemma length_callback_args : forall cs,
  length (callback_args cs)
  = (length (drain_calls cs) + length (abort_calls cs))%nat.
Proof.
  intros cs; unfold drain_calls, abort_calls.
  induction (callback_args cs) as [|a l IH]; simpl; [reflexivity|].
  destruct (is_nil a); simpl; rewrite IH; lia.
Qed.

(** One invocation with the reported error for every truthy error, in
    order. *)
Lemma work_calls_no_callback : forall w, callback_args (snd (work w)) = [].
Proof.
  intros w; unfold work.
  destruct (ge_js (running (st w)) (limit w) || is_nil (items (st w)));
    [reflexivity|].
  destruct (items (st w)); reflexivity.
Qed.

Lemma step_abort_calls : forall w e w' cs,
  step w e = Some (w', cs) -> abort_calls cs = reported_errors [e].
Proof.
  intros w e w' cs H; destruct e as [m args| |err]; simpl in H.
  - destruct (config_method m) eqn:Hm.
    + destruct (step_config m args w w' cs Hm) as [-> _]; [exact H|reflexivity].
    + destruct m; try discriminate Hm; simpl in H; injection H as <- <-;
        try reflexivity.
      * unfold add_m; destruct (negb (isClosed (st w))); reflexivity.
      * unfold close_m.
        destruct ((running (st (set_isClosed true w)) =? 0)
                  && is_nil (items (st (set_isClosed true w)))); reflexivity.
  - destruct (ticks w) as [|n]; [discriminate|]; injection H as H.
    pose proof (work_calls_no_callback (set_ticks n w)) as Hc.
    rewrite H in Hc; simpl in Hc.
    unfold abort_calls; rewrite Hc; reflexivity.
  - destruct (inflight w) as [|n]; [discriminate|]; injection H as H.
    unfold handler in H; simpl.
    destruct (truthy err).
    + injection H as <- <-; reflexivity.
    + match type of H with
      | (if ?b then _ else _) = _ => destruct b
      end.
      * injection H as <- <-; reflexivity.
      * unfold abort_calls.
        pose proof (work_calls_no_callback
                      (set_running (running (st (set_inflight n w)) - 1)
                                   (set_inflight n w))) as Hc.
        rewrite H in Hc; simpl in Hc; rewrite Hc; reflexivity.
Qed.

Lemma reported_errors_cons : forall e evs,
  reported_errors (e :: evs) = reported_errors [e] ++ reported_errors evs.
Proof.
  intros e evs; destruct e as [m args| |err]; simpl; try reflexivity.
  destruct (truthy err); reflexivity.
Qed.

Lemma run_abort_calls : forall evs w w' cs,
  run w evs = Some (w', cs) -> abort_calls cs = reported_errors evs.
Proof.
  induction evs as [|e evs IH]; intros w w' cs H.
  - injection H as <- <-; reflexivity.
  - rewrite run_cons in H.
    destruct (step w e) as [[w1 cs1]|] eqn:Hs; [|discriminate].
    destruct (run w1 evs) as [[w2 cs2]|] eqn:Hr; [|discriminate].
    injection H as <- <-.
    rewrite abort_calls_app, reported_errors_cons.
    rewrite (step_abort_calls _ _ _ _ Hs), (IH _ _ _ Hr); reflexivity.
Qed.

Lemma step_Step : forall w e w' cs,
  step w e = Some (w', cs) -> Step w e w' cs.
Proof.
  intros w e w' cs H; destruct e as [m args| |err].
  - destruct (config_method m) eqn:Hm.
    + destruct (step_config m args w w' cs Hm H) as [-> [o [-> Hl]]].
      apply Step_config; assumption.
    + destruct m; try discriminate Hm; simpl in H; injection H as <- <-.
      * unfold add_m; destruct (isClosed (st w)) eqn:Hc; simpl;
          [apply Step_add_closed | apply Step_add_open]; exact Hc.
      * apply Step_clear.
      * apply Step_open.
      * unfold close_m; simpl.
        destruct (Z.eqb_spec (running (st w)) 0) as [Hr|Hr];
          destruct (items (st w)) as [|i l] eqn:Hi; simpl;
          try (apply Step_close_idle; assumption);
          apply Step_close_busy; first [left; assumption | right; congruence].
  - unfold step in H; destruct (ticks w) as [|n] eqn:Ht; [discriminate|].
    injection H as H.
    destruct (ge_js (running (st w)) (limit w)) eqn:Hg.
    { rewrite (work_gate_closed (set_ticks n w)) in H by (left; exact Hg).
      injection H as <- <-; apply Step_tick_skip; auto. }
    destruct (items (st w)) as [|item rest] eqn:Hi.
    + rewrite (work_gate_closed (set_ticks n w)) in H by (right; exact Hi).
      injection H as <- <-; apply Step_tick_skip; auto.
    + rewrite (work_dispatch (set_ticks n w) item rest Hg Hi) in H.
      injection H as <- <-; apply Step_tick_dispatch; assumption.
  - unfold step in H; destruct (inflight w) as [|n] eqn:Hf; [discriminate|].
    injection H as H; unfold handler in H.
    destruct (truthy err) eqn:He.
    { injection H as <- <-; apply Step_done_error; assumption. }
    cbv zeta in H.
    cbn [st set_running set_inflight isClosed items running] in H.
    set (w1 := set_running (running (st w) - 1) (set_inflight n w)) in *.
    assert (Hwork :
      (ge_js (running (st w) - 1) (limit w) = true \/ items (st w) = [] ->
       work w1 = (w1, [])) /\
      (forall item rest,
         ge_js (running (st w) - 1) (limit w) = false ->
         items (st w) = item :: rest ->
         work w1 = (dispatched rest w1,
                    [WorkerCall (worker (options (st w))) item]))).
    { split.
      - intros Hg; apply work_gate_closed; exact Hg.
      - intros item rest Hg Hi; apply (work_dispatch w1 item rest Hg Hi). }
    destruct Hwork as [Hskip Hdisp].
    destruct (isClosed (st w)) eqn:Hc;
      destruct (items (st w)) as [|item rest] eqn:Hi;
      destruct (Z.eqb_spec (running (st w) - 1) 0) as [Hr|Hr];
      cbn [andb is_nil] in H;
      try (injection H as <- <-; apply Step_done_drain; assumption);
      try (rewrite Hskip in H by (right; reflexivity);
           injection H as <- <-; apply Step_done_skip; auto; fail);
      (destruct (ge_js (running (st w) - 1) (limit w)) eqn:Hg;
       [ rewrite Hskip in H by (left; reflexivity);
         injection H as <- <-; apply Step_done_skip; auto;
         right; right; congruence
       | rewrite (Hdisp item rest eq_refl eq_refl) in H;
         injection H as <- <-; apply Step_done_dispatch; assumption ]).
Qed.

Lemma run_cons_inv : forall w e evs w' cs,
  run w (e :: evs) = Some (w', cs) ->
  exists w1 cs1 cs2,
    Step w e w1 cs1 /\ run w1 evs = Some (w', cs2) /\ cs = cs1 ++ cs2.
Proof.
  intros w e evs w' cs H; rewrite run_cons in H.
  destruct (step w e) as [[w1 cs1]|] eqn:Hs; [|discriminate].
  destruct (run w1 evs) as [[w2 cs2]|] eqn:Hr; [|discriminate].
  injection H as <- <-.
  exists w1, cs1, cs2; auto using step_Step.
Qed.

Ltac step_cases H :=
  inversion H; subst; clear H;
  cbn [st ticks inflight options isClosed items running
       set_options set_isClosed set_items set_running set_ticks set_inflight
       dispatched] in *.

Ltac run_step H w1 cs1 cs2 Hs Hr :=
  apply run_cons_inv in H; destruct H as (w1 & cs1 & cs2 & Hs & Hr & ->).

Ltac config_cases :=
  try match goal with
      | H : config_method ?m = true |- _ => destruct m; try discriminate H
      end.

(** The setter form of [options] as a merge, and what it leaves a
    function. *)
Lemma setter_concurrency : forall v w,
  setter "concurrency" v w
  = set_options (mkOptions (match v with
                            | VNum n => n
                            | _ => concurrency (options (st w))
                            end)
                           (worker (options (st w)))
                           (callback (options (st w)))) w.
Proof.
  intros v [[[c f g] cl i r] t n]; destruct v; reflexivity.
Qed.

Lemma setter_worker : forall v w,
  setter "worker" v w
  = set_options (mkOptions (concurrency (options (st w)))
                           (if is_function v then v
                            else worker (options (st w)))
                           (callback (options (st w)))) w.
Proof.
  intros v [[[c f g] cl i r] t n]; destruct v; reflexivity.
Qed.

Lemma setter_callback : forall v w,
  setter "callback" v w
  = set_options (mkOptions (concurrency (options (st w)))
                           (worker (options (st w)))
                           (if is_function v then v
                            else callback (options (st w)))) w.
Proof.
  intros v [[[c f g] cl i r] t n]; destruct v; reflexivity.
Qed.

Lemma get_prop_absent : forall o k, has_own o k = false -> get_prop o k = VUndefined.
Proof.
  intros [] k; simpl; auto.
  destruct (lookup k props); [discriminate | reflexivity].
Qed.

Lemma options_fold_merged : forall o w,
  fold_left (fun acc k => if has_own o k then setter k (get_prop o k) acc
                          else acc) option_keys w
  = set_options (merged o (options (st w))) w.
Proof.
  intros o w; unfold option_keys, merged; cbn [fold_left].
  destruct (has_own o "concurrency") eqn:Hc;
    destruct (has_own o "worker") eqn:Hw;
    destruct (has_own o "callback") eqn:Hb;
    rewrite ?setter_callback, ?setter_worker, ?setter_concurrency;
    rewrite ?(get_prop_absent o _ Hc), ?(get_prop_absent o _ Hw),
            ?(get_prop_absent o _ Hb);
    destruct w as [[[c f g] cl i r] t n]; reflexivity.
Qed.

Lemma options_m_merged : forall o rest w,
  nullish o = false ->
  options_m (o :: rest) w
  = Returns (mkRes (set_options (merged o (options (st w))) w) [] RetQueue).
Proof.
  intros o rest w Hn; unfold options_m.
  rewrite (options_fold_merged o w).
  destruct o; try discriminate Hn; reflexivity.
Qed.



(** ** Epochs of the completion callback *)

Ltac count_events :=
  unfold opens, closes in *;
  cbn [filter is_open is_close List.length] in *.

Lemma Step_counted : forall w e w' cs,
  Step w e w' cs -> counted w -> counted w'.
Proof.
  unfold counted; intros w e w' cs Hs Hc; step_cases Hs; lia.
Qed.

Lemma run_counted : forall evs w w' cs,
  run w evs = Some (w', cs) -> counted w -> counted w'.
Proof.
  induction evs as [|e evs IH]; intros w w' cs H Hc.
  - injection H as <- <-; exact Hc.
  - run_step H w1 cs1 cs2 Hs Hr.
    eauto using Step_counted.
Qed.

Lemma counted_fresh : counted fresh.
Proof. unfold counted; simpl; lia. Qed.

(** After a drain was reported, a closed idle queue stays silent until it
    is closed again or reopened. *)
Lemma idle_closed_silent : forall evs w w' cs,
  isClosed (st w) = true -> items (st w) = [] ->
  running (st w) = 0 -> inflight w = 0%nat ->
  opens evs = 0%nat -> closes evs = 0%nat ->
  run w evs = Some (w', cs) ->
  callback_args cs = [].
Proof.
  induction evs as [|e evs IH]; intros w w' cs Hc Hi Hr Hf Ho Hcl H.
  - injection H as <- <-; reflexivity.
  - run_step H w1 cs1 cs2 Hs Hrun.
    rewrite callback_args_app.
    step_cases Hs; config_cases; count_events;
      try discriminate; try congruence;
      (apply (IH _ _ _) in Hrun; auto; rewrite Hrun; reflexivity).
Qed.

(** Once a worker reported an error, [running] stays above the number of
    outstanding handlers, and no drain is ever reported again. *)
Lemma aborted_no_drain : forall evs w w' cs,
  Z.of_nat (inflight w) < running (st w) ->
  run w evs = Some (w', cs) ->
  drain_calls cs = [].
Proof.
  induction evs as [|e evs IH]; intros w w' cs Hlt H.
  - injection H as <- <-; reflexivity.
  - run_step H w1 cs1 cs2 Hs Hrun.
    rewrite drain_calls_app.
    step_cases Hs; try lia;
      (apply (IH _ _ _) in Hrun; [rewrite Hrun; reflexivity | simpl; lia]).
Qed.

(** Within one epoch (no [open]), with at most one [close] and at most
    one reported error, the completion callback is invoked at most once. *)
Lemma one_epoch_at_most_once : forall evs w w' cs,
  Z.of_nat (inflight w) = running (st w) ->
  opens evs = 0%nat ->
  (closes evs <= (if isClosed (st w) then 0 else 1))%nat ->
  (List.length (reported_errors evs) <= 1)%nat ->
  run w evs = Some (w', cs) ->
  (List.length (callback_args cs) <= 1)%nat.
Proof.
  induction evs as [|e evs IH]; intros w w' cs Heq Ho Hcl Herr H.
  - injection H as <- <-; simpl; lia.
  - run_step H w1 cs1 cs2 Hs Hrun.
    rewrite callback_args_app, length_app.
    destruct (isClosed (st w)) eqn:Hc;
      step_cases Hs; config_cases; count_events;
      cbn [reported_errors] in Herr;
      repeat match goal with
             | Ht : truthy ?err = _ |- _ => rewrite Ht in Herr; clear Ht
             end;
      cbn [List.length] in Herr;
      try discriminate; try congruence; try lia;
      first
        [ (* nothing reported by this step: the rest of the epoch decides *)
          apply (IH _ _ _) in Hrun;
          [ simpl; lia
          | simpl; try rewrite Hc; simpl; first [assumption | lia] .. ]
        | (* an abort: no drain follows, and no further error is allowed *)
          pose proof (run_abort_calls _ _ _ _ Hrun) as Ha;
          apply aborted_no_drain in Hrun; [|simpl; lia];
          rewrite (length_callback_args cs2), Ha, Hrun; simpl; lia
        | (* a drain: the closed idle queue stays silent *)
          apply idle_closed_silent in Hrun;
          [ rewrite Hrun; simpl; lia
          | unfold opens, closes; simpl;
            first [assumption | reflexivity | lia] .. ] ].
Qed.

Lemma create_shape : forall args w0,
  create args = Some w0 -> exists o, w0 = set_options o fresh.
Proof.
  intros args w0 H; unfold create in H.
  destruct args as [|v args']; [injection H as <-; eexists; reflexivity|].
  destruct (options_fold_frame v option_keys fresh) as [o Hf].
  destruct v; try discriminate H; injection H as <-; exists o; exact Hf.
Qed.

(** Constructing a queue with options is constructing one without and
    calling [options] on it: executions may start from [fresh]. *)
Lemma create_is_run : forall args w0,
  create args = Some w0 ->
  run fresh (match args with [] => [] | v :: _ => [Call MOptions [v]] end)
  = Some (w0, []).
Proof.
  intros [|v args'] w0 H; unfold create in H;
    [injection H as <-; reflexivity|].
  rewrite run_cons; unfold step, invoke.
  destruct (options_m [v] fresh) as [r|] eqn:Ho; [|discriminate].
  injection H as <-.
  replace (calls r) with (@nil call); [reflexivity|].
  unfold options_m in Ho; destruct v; try discriminate Ho;
    injection Ho as <-; reflexivity.
Qed.

(** C1: the code at the failing input.  On a new queue two items are
    dispatched and both workers report an error: the queue is never
    reopened, and the completion callback is invoked twice, once with
    each error, where the comments of the handler ("terminate the entire
    queue", "Issue final callback with the error") announce a single
    invocation. *)
Lemma callback_twice_in_one_epoch :
  opens two_errors = 0%nat /\
  run fresh two_errors =
    Some (mkWorld (mkQueue (mkOptions (Fin 10) noop noop) true [] 2) 0%nat 0%nat,
          [WorkerCall noop (VStr "a"); WorkerCall noop (VStr "b");
           CallbackCall noop [VStr "e1"]; CallbackCall noop [VStr "e2"]]).
Proof. split; reflexivity. Qed.

(** X27: what the code does guarantee.  In an epoch, that is from a
    state a new queue can reach in which the queue is open (at
    construction, or after an [open()] and whatever history) up to the
    next [open()], with at most one [close()] and at most one
    worker-reported error, the completion callback is invoked at most
    once, whatever else happens: in particular successful completions of
    workers in flight at the abort, and a [close()] after it, never
    invoke it again. *)
Theorem callback_at_most_once_in_an_epoch :
  forall (pre evs : list event) (w0 w : World) (cs0 cs : list call),
  run fresh pre = Some (w0, cs0) ->
  isClosed (st w0) = false ->
  opens evs = 0%nat ->
  (closes evs <= 1)%nat ->
  (List.length (reported_errors evs) <= 1)%nat ->
  run w0 evs = Some (w, cs) ->
  (List.length (callback_args cs) <= 1)%nat.
Proof.
  intros pre evs w0 w cs0 cs Hpre Hopen Ho Hcl Herr Hrun.
  pose proof (run_counted pre fresh w0 cs0 Hpre counted_fresh) as Hc.
  unfold counted in Hc.
  destruct (Z.eq_dec (Z.of_nat (inflight w0)) (running (st w0))) as [Heq|Hne].
  - apply (one_epoch_at_most_once evs w0 w cs); auto.
    rewrite Hopen; exact Hcl.
  - rewrite length_callback_args.
    rewrite (run_abort_calls evs w0 w cs Hrun).
    rewrite (aborted_no_drain evs w0 w cs) by (auto; lia).
    simpl; exact Herr.
Qed.

Lemma callback_at_most_once_in_an_epoch_witness :
  exists w0 cs0 w cs,
    run fresh aborted_and_reopened = Some (w0, cs0) /\
    run w0 error_then_success = Some (w, cs) /\
    callback_args cs = [[VStr "e1"]] /\
    (List.length (callback_args cs) <= 1)%nat.
Proof.
  do 4 eexists.
  split; [vm_compute; reflexivity|].
  split; [vm_compute; reflexivity|].
  split; [reflexivity|].
  eapply (callback_at_most_once_in_an_epoch aborted_and_reopened
            error_then_success);
    [vm_compute; reflexivity | reflexivity | reflexivity | vm_compute; lia
    | vm_compute; lia | vm_compute; reflexivity].
Defined.

(** ** The running count and the concurrency limit *)

Lemma le_js_pred : forall r c, le_js r c = true -> le_js (r - 1) c = true.
Proof.
  intros r [q| | |]; simpl; auto.
  rewrite !Qle_bool_iff; intros H.
  apply Qle_trans with (inject_Z r); [|exact H].
  rewrite <- Zle_Qle; lia.
Qed.

(** Through the gate there is room for one more under a whole limit. *)
Lemma gate_open_room : forall r c,
  whole c = true -> ge_js r c = false -> le_js (r + 1) c = true.
Proof.
  intros r [q| | |]; simpl; try discriminate; auto.
  intros Hw Hg.
  apply Qeq_bool_iff in Hw.
  apply Qle_bool_iff; rewrite Hw; rewrite <- Zle_Qle.
  assert (Hn : ~ (Qfloor q <= r)).
  { intros Hle; rewrite Zle_Qle in Hle; rewrite <- Hw in Hle.
    apply Qle_bool_iff in Hle; congruence. }
  lia.
Qed.

Lemma ge_js_mono : forall r c,
  0 <= r -> ge_js 0 c = true -> ge_js r c = true.
Proof.
  intros r [q| | |] Hr; simpl; auto.
  rewrite !Qle_bool_iff; intros H.
  apply Qle_trans with (inject_Z 0); [exact H|].
  rewrite <- Zle_Qle; exact Hr.
Qed.

Lemma Step_bounded : forall w e w' cs,
  Step w e w' cs -> bounded w -> keeps_bound w e = true -> bounded w'.
Proof.
  unfold bounded, counted, keeps_bound.
  intros w e w' cs Hs (Hw & Hle & Hc) Hk.
  step_cases Hs; unfold limit in *;
    cbn [st options set_options set_isClosed set_items set_running
         set_ticks set_inflight] in *;
    try match goal with
        | H : concurrency ?o = limit_after _ _ |- _ =>
            rewrite H; unfold limit_after, limit;
            destruct (new_limit _) as [c|];
            [apply andb_true_iff in Hk; destruct Hk|]
        end;
    repeat split; auto using le_js_pred, gate_open_room; try lia.
Qed.

Lemma bounded_fresh : bounded fresh.
Proof. repeat split; unfold counted; simpl; lia. Qed.

(** A write to [this.concurrency] has the effect of the setter; the
    setter only adds the [typeof] guard. *)
Lemma write_concurrency_as_setter : forall n w,
  act w (Writes (WConcurrency n)) =
  act w (Does (Call MConcurrency [VNum n])).
Proof. reflexivity. Qed.

Lemma perform_cons : forall w a acts,
  perform w (a :: acts) =
  match act w a with
  | None => None
  | Some (w1, cs1) =>
      match perform w1 acts with
      | None => None
      | Some (w2, cs2) => Some (w2, cs1 ++ cs2)
      end
  end.
Proof. reflexivity. Qed.

Lemma perform_cons_inv : forall w a acts w' cs,
  perform w (a :: acts) = Some (w', cs) ->
  exists w1 cs1 cs2,
    act w a = Some (w1, cs1) /\ perform w1 acts = Some (w', cs2) /\
    cs = cs1 ++ cs2.
Proof.
  intros w a acts w' cs H; rewrite perform_cons in H.
  destruct (act w a) as [[w1 cs1]|]; [|discriminate].
  destruct (perform w1 acts) as [[w2 cs2]|] eqn:Hp; [|discriminate].
  injection H as <- <-; exists w1, cs1, cs2; auto.
Qed.

(** An execution without writes is an execution of the queue alone. *)
Lemma perform_does : forall evs w,
  perform w (map Does evs) = run w evs.
Proof.
  induction evs as [|e evs IH]; intros w; [reflexivity|].
  cbn [map]; rewrite perform_cons, run_cons; cbn [act].
  destruct (step w e) as [[w1 cs1]|]; [|reflexivity].
  rewrite IH; reflexivity.
Qed.

Lemma act_counted : forall w a w' cs,
  act w a = Some (w', cs) -> counted w -> counted w'.
Proof.
  intros w [e|x] w' cs H Hc; cbn [act] in H.
  - eauto using Step_counted, step_Step.
  - injection H as <- _; destruct x; exact Hc.
Qed.

Lemma act_bounded : forall w a w' cs,
  act w a = Some (w', cs) -> bounded w -> keeps_limit w a = true ->
  bounded w'.
Proof.
  intros w [e|x] w' cs H Hb Hk; cbn [act] in H.
  - eapply Step_bounded; eauto using step_Step.
  - injection H as <- _.
    destruct Hb as (Hw & Hle & Hc).
    unfold bounded, counted, limit, keeps_limit in *.
    destruct x as [n|v|v]; cbn [stored_limit store st options set_options
                                 concurrency running inflight] in *; auto.
    apply andb_true_iff in Hk; destruct Hk; auto.
Qed.

Lemma perform_counted : forall acts w w' cs,
  perform w acts = Some (w', cs) -> counted w -> counted w'.
Proof.
  induction acts as [|a acts IH]; intros w w' cs H Hc.
  - injection H as <- <-; exact Hc.
  - apply perform_cons_inv in H.
    destruct H as (w1 & cs1 & cs2 & Ha & Hp & _).
    eauto using act_counted.
Qed.

Lemma perform_bounded : forall acts w w' cs,
  bounded w -> never_under w acts = true ->
  perform w acts = Some (w', cs) -> bounded w'.
Proof.
  induction acts as [|a acts IH]; intros w w' cs Hb Hn H.
  - injection H as <- <-; exact Hb.
  - apply perform_cons_inv in H.
    destruct H as (w1 & cs1 & cs2 & Ha & Hp & _).
    cbn [never_under] in Hn; rewrite Ha in Hn.
    apply andb_true_iff in Hn; destruct Hn as [Hk Hn].
    eapply IH; [|exact Hn|exact Hp].
    eapply act_bounded; eauto.
Qed.

(** C3, as stated, fails: with two items running under the default limit
    of 10, [concurrency(1)] leaves a running count of 2 above the
    configured limit of 1. *)
Lemma running_exceeds_lowered_limit :
  run fresh lowered_mid_run =
    Some (mkWorld (mkQueue (mkOptions (Fin 1) noop noop) false [] 2) 0%nat 2%nat,
          [WorkerCall noop (VStr "a"); WorkerCall noop (VStr "b")]) /\
  le_js 2 (Fin 1) = false.
Proof. split; reflexivity. Qed.

(** A limit that is not whole lets the count pass it: under a limit of
    1.5 a second item is dispatched. *)
Lemma running_exceeds_fractional_limit :
  run fresh fractional_limit =
    Some (mkWorld (mkQueue (mkOptions (Fin (3 # 2)) noop noop) false [] 2)
                  0%nat 2%nat,
          [WorkerCall noop (VStr "a"); WorkerCall noop (VStr "b")]) /\
  le_js 2 (Fin (3 # 2)) = false.
Proof. split; reflexivity. Qed.

(** The same through [this]: a worker that stores 1 into
    [this.concurrency] while two items run leaves the count above the
    limit, without any call of a setter. *)
Lemma running_exceeds_limit_written_by_worker :
  perform fresh lowered_by_worker =
    Some (mkWorld (mkQueue (mkOptions (Fin 1) noop noop) false [] 2) 0%nat 2%nat,
          [WorkerCall noop (VStr "a"); WorkerCall noop (VStr "b")]) /\
  le_js 2 (Fin 1) = false.
Proof. split; reflexivity. Qed.

(** C3, amended: in every state reachable from a new queue by method
    calls, scheduled dispatch attempts, worker completions (each handler
    invoked at most once) and writes of user code to the options object
    it is called on, the running count is never negative; and it never
    exceeds the configured concurrency provided every value stored as
    the concurrency, by [concurrency()], by [options()] or by a write to
    [this.concurrency], is a number, whole and not below the running
    count at the moment it is stored (raising the limit mid-run is fine,
    lowering it under the running count is not). *)
Theorem running_count_within_limit :
  forall (acts : list action) (w : World) (cs : list call),
  perform fresh acts = Some (w, cs) ->
  0 <= running (st w) /\
  (never_under fresh acts = true ->
   le_js (running (st w)) (limit w) = true).
Proof.
  intros acts w cs H; split.
  - pose proof (perform_counted acts fresh w cs H counted_fresh) as Hc.
    unfold counted in Hc; lia.
  - intros Hn.
    destruct (perform_bounded acts fresh w cs bounded_fresh Hn H)
      as (_ & Hle & _).
    exact Hle.
Qed.

Lemma running_count_within_limit_witness :
  exists w cs,
    perform fresh raised_mid_run = Some (w, cs) /\
    running (st w) = 2 /\ limit w = Fin 3 /\
    0 <= running (st w) /\ le_js (running (st w)) (limit w) = true.
Proof.
  eexists; eexists; split; [vm_compute; reflexivity|].
  split; [reflexivity|]; split; [reflexivity|].
  split.
  - eapply (running_count_within_limit raised_mid_run); reflexivity.
  - eapply (running_count_within_limit raised_mid_run); reflexivity.
Defined.

(** ** A limit that lets nothing through *)

Lemma blocked_forever : forall evs w w' cs,
  counted w ->
  ge_js 0 (limit w) = true ->
  Forall (fun e => new_limit e = None) evs ->
  run w evs = Some (w', cs) ->
  worker_items cs = [] /\
  (Forall (fun e => discards e = false) evs ->
   items (st w) <> [] ->
   items (st w') <> [] /\ callback_args cs = []).
Proof.
  induction evs as [|e evs IH]; intros w w' cs Hc Hg Hn H.
  - injection H as <- <-; auto.
  - run_step H w1 cs1 cs2 Hs Hrun.
    inversion Hn as [|e0 evs0 Hn1 Hn2]; subst.
    assert (Hc1 : counted w1) by eauto using Step_counted.
    assert (Hnow : ge_js 0 (limit w1) = true /\ worker_items cs1 = [] /\
                   (discards e = false -> items (st w) <> [] ->
                    items (st w1) <> [] /\ callback_args cs1 = [])).
    { clear IH Hrun Hc1.
      pose proof (ge_js_mono (running (st w)) (limit w)) as Hm.
      pose proof (ge_js_mono (running (st w) - 1) (limit w)) as Hm1.
      unfold counted in Hc.
      step_cases Hs; unfold limit in *;
        cbn [st options set_options set_isClosed set_items set_running
             set_ticks set_inflight discards] in *;
        try match goal with
            | H : concurrency ?o = limit_after _ _ |- _ =>
                rewrite H; unfold limit_after, limit; rewrite Hn1
            end;
        try (rewrite Hm in *; [discriminate | lia | assumption]);
        try (rewrite Hm1 in *; [discriminate | lia | assumption]);
        repeat split; auto; try congruence.
      intros Happ; apply app_eq_nil in Happ; tauto. }
    destruct Hnow as (Hg1 & Hw1 & Hkeep).
    destruct (IH w1 w' cs2 Hc1 Hg1 Hn2 Hrun) as [Hw2 Hrest].
    split; [rewrite worker_items_app, Hw1, Hw2; reflexivity|].
    intros Hd Hne; inversion Hd as [|e0 evs0 Hd1 Hd2]; subst.
    destruct (Hkeep Hd1 Hne) as [Hne1 Hcb1].
    destruct (Hrest Hd2 Hne1) as [Hne2 Hcb2].
    split; [exact Hne2 | rewrite callback_args_app, Hcb1, Hcb2; reflexivity].
Qed.

(** C10: the concurrency setter stores any number it is given (zero,
    negative and fractional ones, NaN and the infinities included) and
    returns the queue; and once the configured concurrency is at most 0,
    as long as it is not set again, no item is handed to the worker, and a
    queue with pending items keeps them (unless they are discarded by
    [clear()] or an abort) and never reports a drain. *)
Theorem nonpositive_concurrency_blocks_dispatch :
  (forall (n : number) (rest : list value) (w : World),
     limit (next (concurrency_m (VNum n :: rest) w)) = n /\
     ret (concurrency_m (VNum n :: rest) w) = RetQueue) /\
  (forall (pre evs : list event) (w w' : World) (cs0 cs : list call),
     run fresh pre = Some (w, cs0) ->
     ge_js 0 (limit w) = true ->
     Forall (fun e => new_limit e = None) evs ->
     run w evs = Some (w', cs) ->
     worker_items cs = [] /\
     (Forall (fun e => discards e = false) evs ->
      items (st w) <> [] ->
      items (st w') <> [] /\ callback_args cs = [])).
Proof.
  split.
  - intros n rest w; split; reflexivity.
  - intros pre evs w w' cs0 cs Hpre Hg Hn H.
    apply (blocked_forever evs w w' cs); auto.
    exact (run_counted pre fresh w cs0 Hpre counted_fresh).
Qed.

Lemma nonpositive_concurrency_blocks_dispatch_witness :
  exists w w' cs0 cs,
    run fresh blocked_setup = Some (w, cs0) /\
    run w blocked_run = Some (w', cs) /\
    limit w = Fin (-1 # 2) /\
    worker_items cs = [] /\
    items (st w') = [VStr "b"] /\
    callback_args cs = [].
Proof.
  do 4 eexists.
  split; [vm_compute; reflexivity|].
  split; [vm_compute; reflexivity|].
  split; [reflexivity|].
  split; [|split; [reflexivity|]].
  - eapply (proj2 nonpositive_concurrency_blocks_dispatch
              blocked_setup blocked_run).
    + reflexivity.
    + reflexivity.
    + repeat constructor.
    + reflexivity.
  - eapply (proj2 nonpositive_concurrency_blocks_dispatch
              blocked_setup blocked_run).
    + reflexivity.
    + reflexivity.
    + repeat constructor.
    + reflexivity.
    + repeat constructor.
    + vm_compute; discriminate.
Defined.

(** ** Dispatch order *)

Lemma gate_shut_running : forall r c,
  0 <= r -> ge_js 0 c = false -> ge_js r c = true -> 0 < r.
Proof.
  intros r c Hr H0 Hg.
  destruct (Z.eq_dec r 0) as [->|Hne]; [congruence | lia].
Qed.

Lemma Step_on_track : forall w e w' cs,
  Step w e w' cs -> nominal e = true -> on_track w ->
  on_track w' /\
  worker_items cs ++ items (st w') = items (st w) ++ added (isClosed (st w)) [e] /\
  isClosed (st w') = isClosed (st w) || is_close e.
Proof.
  unfold on_track.
  intros w e w' cs Hs Hn (Hr & Hg & Hp).
  pose proof (gate_shut_running (running (st w)) (limit w)) as Hshut.
  pose proof (gate_shut_running (running (st w) - 1) (limit w)) as Hshut1.
  step_cases Hs; config_cases; try discriminate Hn;
    unfold limit in *;
    cbn [st options set_options set_isClosed set_items set_running
         set_ticks set_inflight dispatched added is_close worker_items app
         nominal] in *;
    try match goal with
        | Ht : truthy _ = true |- _ => rewrite Ht in Hn; discriminate Hn
        end;
    rewrite ?app_nil_r, ?orb_false_r, ?orb_true_r;
    (split; [split; [|split] | split]);
    try lia; try assumption; try reflexivity; try (symmetry; assumption);
    try match goal with
        | Hc : isClosed _ = _ |- _ => rewrite Hc, ?app_nil_r; reflexivity
        end;
    intros Hne;
    try match goal with
        | Hor : _ \/ items _ = [] |- _ =>
            destruct Hor as [Hsh | Hnil]; [|congruence];
            first [apply Hshut in Hsh | apply Hshut1 in Hsh]
        end;
    first [assumption | congruence | lia | left; lia | right; lia | tauto].
Qed.

Lemma added_cons : forall c e evs,
  added c (e :: evs) = added c [e] ++ added (c || is_close e) evs.
Proof.
  intros c e evs; destruct e as [[] args| |err]; destruct c; reflexivity.
Qed.

Lemma run_on_track : forall evs w w' cs,
  on_track w ->
  Forall (fun e => nominal e = true) evs ->
  run w evs = Some (w', cs) ->
  on_track w' /\
  worker_items cs ++ items (st w') = items (st w) ++ added (isClosed (st w)) evs.
Proof.
  induction evs as [|e evs IH]; intros w w' cs Ht Hn H.
  - injection H as <- <-; simpl; rewrite app_nil_r; auto.
  - run_step H w1 cs1 cs2 Hs Hrun.
    inversion Hn as [|e0 evs0 Hn1 Hn2]; subst.
    destruct (Step_on_track w e w1 cs1 Hs Hn1 Ht) as (Ht1 & Hi1 & Hc1).
    destruct (IH w1 w' cs2 Ht1 Hn2 Hrun) as (Ht2 & Hi2).
    split; [exact Ht2|].
    rewrite worker_items_app, <- app_assoc, Hi2, app_assoc, Hi1, Hc1.
    rewrite (added_cons (isClosed (st w)) e evs), app_assoc; reflexivity.
Qed.

Lemma progress_nominal : forall e, progress e = true -> nominal e = true.
Proof. intros [m args| |[]]; simpl; auto; discriminate. Qed.

Lemma Step_backlog : forall w e w' cs,
  Step w e w' cs -> progress e = true -> (backlog w' < backlog w)%nat.
Proof.
  unfold backlog; intros w e w' cs Hs Hp.
  step_cases Hs; try discriminate Hp;
    try match goal with
        | Hi : items _ = _ |- _ => rewrite Hi
        end;
    cbn [List.length]; lia.
Qed.

(** From any state on track the environment alone brings the queue to
    rest: no dispatch attempt scheduled, no handler outstanding. *)
Lemma settles : forall n w,
  (backlog w <= n)%nat -> on_track w ->
  exists evs w' cs,
    Forall (fun e => progress e = true) evs /\
    run w evs = Some (w', cs) /\
    ticks w' = 0%nat /\ inflight w' = 0%nat.
Proof.
  induction n as [|n IH]; intros w Hb Ht.
  - exists [], w, []; unfold backlog in Hb; repeat split; auto; lia.
  - assert (Hnext : forall e w1 cs1,
              progress e = true -> step w e = Some (w1, cs1) ->
              exists evs w' cs,
                Forall (fun e => progress e = true) evs /\
                run w evs = Some (w', cs) /\
                ticks w' = 0%nat /\ inflight w' = 0%nat).
    { intros e w1 cs1 Hp Hs.
      pose proof (step_Step _ _ _ _ Hs) as HS.
      pose proof (Step_backlog _ _ _ _ HS Hp) as Hlt.
      destruct (Step_on_track _ _ _ _ HS (progress_nominal e Hp) Ht)
        as (Ht1 & _).
      destruct (IH w1 ltac:(lia) Ht1) as (evs & w' & cs & Hf & Hr & Hq).
      exists (e :: evs), w', (cs1 ++ cs); split; [auto|]; split; [|exact Hq].
      rewrite run_cons, Hs, Hr; reflexivity. }
    destruct (ticks w) as [|k] eqn:Hk.
    + destruct (inflight w) as [|j] eqn:Hj.
      * exists [], w, []; repeat split; auto.
      * apply (Hnext (Done VUndefined) (fst (handler VUndefined (set_inflight j w)))
                     (snd (handler VUndefined (set_inflight j w))));
          [reflexivity|].
        unfold step; rewrite Hj; rewrite <- surjective_pairing; reflexivity.
    + apply (Hnext Tick (fst (work (set_ticks k w))) (snd (work (set_ticks k w))));
        [reflexivity|].
      unfold step; rewrite Hk; rewrite <- surjective_pairing; reflexivity.
Qed.

Lemma on_track_created : forall args w0,
  create args = Some w0 -> ge_js 0 (limit w0) = false -> on_track w0.
Proof.
  intros args w0 Hcr Hg; destruct (create_shape args w0 Hcr) as [o ->].
  repeat split; auto; simpl; congruence.
Qed.

Lemma accepted_cons : forall c a acts,
  accepted c (a :: acts) = accepted c [a] ++ accepted (flag_next c a) acts.
Proof.
  intros c a acts; cbn [accepted]; rewrite app_nil_r; reflexivity.
Qed.

Lemma orderly_does : forall e,
  orderly (Does e) = true ->
  discards e = false /\
  (forall c, new_limit e = Some c -> ge_js 0 c = false).
Proof.
  unfold orderly; cbn [stored_limit]; intros e H.
  apply andb_true_iff in H; destruct H as [Hl Hd].
  split; [destruct (discards e); [discriminate | reflexivity]|].
  intros c Hc; rewrite Hc in Hl.
  destruct (ge_js 0 c); [discriminate | reflexivity].
Qed.

Lemma Step_orderly : forall w e w' cs,
  Step w e w' cs -> orderly (Does e) = true -> on_track w ->
  on_track w' /\
  worker_items cs ++ items (st w')
    = items (st w) ++ accepted (isClosed (st w)) [Does e] /\
  isClosed (st w') = flag_next (isClosed (st w)) (Does e).
Proof.
  unfold on_track.
  intros w e w' cs Hs Ho (Hr & Hg & Hp).
  destruct (orderly_does e Ho) as [Hd Hl]; clear Ho.
  pose proof (gate_shut_running (running (st w)) (limit w)) as Hshut.
  pose proof (gate_shut_running (running (st w) - 1) (limit w)) as Hshut1.
  step_cases Hs; config_cases; try discriminate Hd;
    unfold limit in *;
    cbn [st options set_options set_isClosed set_items set_running
         set_ticks set_inflight dispatched accepted flag_next worker_items
         app discards] in *;
    try match goal with
        | Ht : truthy _ = true |- _ => rewrite Ht in Hd; discriminate Hd
        end;
    try match goal with
        | Ht : truthy ?err = false |- _ => rewrite ?Ht
        end;
    try match goal with
        | H : concurrency ?o = limit_after _ _ |- _ =>
            rewrite H; unfold limit_after, limit;
            match goal with
            | |- context [new_limit ?e] =>
                destruct (new_limit e) as [c|] eqn:Hc;
                [pose proof (Hl c eq_refl) as Hgc|]
            end
        end;
    rewrite ?app_nil_r;
    (split; [split; [|split] | split]);
    try lia; try assumption; try reflexivity; try (symmetry; assumption);
    try match goal with
        | Hc : isClosed _ = _ |- _ => rewrite Hc, ?app_nil_r; reflexivity
        end;
    try (intros Hne;
    try match goal with
        | Hor : _ \/ items _ = [] |- _ =>
            destruct Hor as [Hsh | Hnil]; [|congruence];
            first [apply Hshut in Hsh | apply Hshut1 in Hsh]
        end;
    first [assumption | congruence | lia | left; lia | right; lia | tauto]).
Qed.

Lemma act_orderly : forall w a w' cs,
  act w a = Some (w', cs) -> orderly a = true -> on_track w ->
  on_track w' /\
  worker_items cs ++ items (st w')
    = items (st w) ++ accepted (isClosed (st w)) [a] /\
  isClosed (st w') = flag_next (isClosed (st w)) a.
Proof.
  intros w [e|x] w' cs H Ho Ht; cbn [act] in H.
  - eapply Step_orderly; eauto using step_Step.
  - injection H as <- <-.
    unfold on_track, limit in *; destruct Ht as (Hr & Hg & Hp).
    unfold orderly in Ho; apply andb_true_iff in Ho; destruct Ho as [Hl _].
    destruct x as [n|v|v];
      cbn [stored_limit store st options set_options concurrency running
           inflight items isClosed ticks accepted flag_next worker_items
           app] in *;
      rewrite ?app_nil_r; repeat split; auto.
    destruct (ge_js 0 n); [discriminate | reflexivity].
Qed.

Lemma perform_orderly : forall acts w w' cs,
  on_track w ->
  Forall (fun a => orderly a = true) acts ->
  perform w acts = Some (w', cs) ->
  on_track w' /\
  worker_items cs ++ items (st w')
    = items (st w) ++ accepted (isClosed (st w)) acts.
Proof.
  induction acts as [|a acts IH]; intros w w' cs Ht Hn H.
  - injection H as <- <-; simpl; rewrite app_nil_r; auto.
  - apply perform_cons_inv in H.
    destruct H as (w1 & cs1 & cs2 & Ha & Hp & ->).
    inversion Hn as [|a0 acts0 Hn1 Hn2]; subst.
    destruct (act_orderly w a w1 cs1 Ha Hn1 Ht) as (Ht1 & Hi1 & Hc1).
    destruct (IH w1 w' cs2 Ht1 Hn2 Hp) as (Ht2 & Hi2).
    split; [exact Ht2|].
    rewrite worker_items_app, <- app_assoc, Hi2, app_assoc, Hi1, Hc1.
    rewrite (accepted_cons (isClosed (st w)) a acts), app_assoc; reflexivity.
Qed.

(** The worker stays a function: the setters refuse anything else. *)
Lemma step_worker_function : forall w e w' cs,
  step w e = Some (w', cs) ->
  is_function (worker (options (st w))) = true ->
  is_function (worker (options (st w'))) = true /\
  Forall (fun c => worker_call_ok c = true) cs.
Proof.
  intros w e w' cs H Hw.
  destruct e as [m args| |err].
  - destruct (config_method m) eqn:Hm.
    + destruct (step_config m args w w' cs Hm H) as [Hcs _].
      split; [|rewrite Hcs; constructor].
      destruct m; try discriminate Hm; simpl in H.
      * destruct args as [|v args']; simpl in H;
          [|destruct (is_function v) eqn:Hv; simpl in H];
          injection H as <- _; simpl; rewrite ?Hv, ?Hw; reflexivity.
      * destruct args as [|v args']; simpl in H;
          [|destruct (is_function v) eqn:Hv; simpl in H];
          injection H as <- _; simpl; rewrite ?Hw; reflexivity.
      * destruct args as [|[] args']; simpl in H;
          injection H as <- _; simpl; rewrite ?Hw; reflexivity.
      * injection H as <- _; simpl; rewrite Hw; reflexivity.
      * unfold options_m in H.
        destruct args as [|o args'];
          [injection H as <- _; rewrite Hw; reflexivity|].
        rewrite (options_fold_merged o w) in H.
        assert (Hw' : is_function (worker (merged o (options (st w)))) = true).
        { unfold merged; cbn [worker].
          destruct (is_function (get_prop o "worker")) eqn:H1; auto. }
        destruct o; injection H as <- _;
          cbn [st options set_options returns next];
          rewrite ?Hw', ?Hw; reflexivity.
    + apply step_Step in H.
      step_cases H; try congruence;
        (split; [simpl; rewrite ?Hw; reflexivity
                | repeat constructor; assumption]).
  - apply step_Step in H.
    step_cases H; (split; [simpl; rewrite ?Hw; reflexivity
                          | repeat constructor; assumption]).
  - apply step_Step in H.
    step_cases H; (split; [simpl; rewrite ?Hw; reflexivity
                          | repeat constructor; assumption]).
Qed.

Lemma perform_worker_function : forall acts w w' cs,
  is_function (worker (options (st w))) = true ->
  Forall (fun a => orderly a = true) acts ->
  perform w acts = Some (w', cs) ->
  Forall (fun c => worker_call_ok c = true) cs.
Proof.
  induction acts as [|a acts IH]; intros w w' cs Hw Hn H.
  - injection H as _ <-; constructor.
  - apply perform_cons_inv in H.
    destruct H as (w1 & cs1 & cs2 & Ha & Hp & ->).
    inversion Hn as [|a0 acts0 Hn1 Hn2]; subst.
    assert (H1 : is_function (worker (options (st w1))) = true /\
                 Forall (fun c => worker_call_ok c = true) cs1).
    { destruct a as [e|x]; cbn [act] in Ha.
      - exact (step_worker_function w e w1 cs1 Ha Hw).
      - injection Ha as <- <-; split; [|constructor].
        unfold orderly in Hn1; apply andb_true_iff in Hn1.
        destruct Hn1 as [_ Hf].
        destruct x; cbn [store st options set_options worker]; auto. }
    destruct H1 as [Hw1 Hc1].
    apply Forall_app; split; [exact Hc1|].
    exact (IH w1 w' cs2 Hw1 Hn2 Hp).
Qed.

Lemma create_worker_function : forall args w0,
  create args = Some w0 -> is_function (worker (options (st w0))) = true.
Proof.
  intros args w0 H; unfold create in H.
  destruct args as [|v args']; [injection H as <-; reflexivity|].
  unfold options_m in H; rewrite (options_fold_merged v fresh) in H.
  assert (Hw : is_function (worker (merged v (options (st fresh)))) = true).
  { unfold merged; cbn [worker].
    destruct (is_function (get_prop v "worker")) eqn:H1; auto. }
  destruct v; try discriminate H; injection H as <-; exact Hw.
Qed.

Lemma accepted_progress : forall evs c,
  Forall (fun e => progress e = true) evs -> accepted c (map Does evs) = [].
Proof.
  induction evs as [|e evs IH]; intros c H; [reflexivity|].
  inversion H as [|e0 evs0 H1 H2]; subst.
  destruct e as [m args| |[]]; try discriminate H1;
    cbn [map accepted flag_next truthy app]; auto.
Qed.

Lemma progress_orderly : forall e,
  progress e = true -> orderly (Does e) = true.
Proof. intros [m args| |[]]; simpl; auto; discriminate. Qed.

(** C4, as stated, fails: under a limit of 1 two items are added and the
    queue is closed; the first item is dispatched and its worker reports
    an error.  The queue is then at rest (no dispatch attempt scheduled,
    no handler outstanding), the second item was thrown away and the
    worker never receives it. *)
Lemma second_item_never_dispatched :
  perform fresh failed_midway =
    Some (mkWorld (mkQueue (mkOptions (Fin 1) noop noop) true [] 1) 0%nat 0%nat,
          [WorkerCall noop (VStr "a"); CallbackCall noop [VStr "boom"]]) /\
  accepted false failed_midway = [VStr "a"; VStr "b"] /\
  worker_items [WorkerCall noop (VStr "a"); CallbackCall noop [VStr "boom"]]
    = [VStr "a"].
Proof. repeat split; reflexivity. Qed.

(** C4, amended: on a newly created queue whose limit lets an item
    through, in an orderly life (any method calls but [clear()], dispatch
    attempts, completions without error, writes of user code to [this];
    every concurrency stored lets an item through and every worker stored
    by a write is a function), every call of the worker goes to a
    function, and the worker has at every moment received exactly the
    items added while the queue was open, in the order of the [add]
    calls, up to those still pending; once the queue is at rest it has
    received each of them exactly once, in that order; and the event loop
    and the workers alone bring the queue to rest. *)
Theorem dispatch_is_fifo_once_each :
  forall (args : list value) (w0 : World) (acts : list action)
         (w : World) (cs : list call),
  create args = Some w0 ->
  ge_js 0 (limit w0) = false ->
  Forall (fun a => orderly a = true) acts ->
  perform w0 acts = Some (w, cs) ->
  Forall (fun c => worker_call_ok c = true) cs /\
  worker_items cs ++ items (st w) = accepted false acts /\
  (ticks w = 0%nat -> inflight w = 0%nat ->
   worker_items cs = accepted false acts) /\
  exists evs' w' cs',
    Forall (fun e => progress e = true) evs' /\
    run w evs' = Some (w', cs') /\
    ticks w' = 0%nat /\ inflight w' = 0%nat /\
    worker_items (cs ++ cs') = accepted false acts.
Proof.
  intros args w0 acts w cs Hcr Hg Hn H.
  pose proof (on_track_created args w0 Hcr Hg) as Ht0.
  pose proof (create_worker_function args w0 Hcr) as Hw0.
  destruct (create_shape args w0 Hcr) as [o Hs0].
  destruct (perform_orderly acts w0 w cs Ht0 Hn H) as (Ht & Hi).
  replace (items (st w0)) with (@nil value) in Hi by (subst w0; reflexivity).
  replace (isClosed (st w0)) with false in Hi by (subst w0; reflexivity).
  simpl in Hi.
  assert (Hrest : forall w1 c1,
            on_track w1 -> ticks w1 = 0%nat -> inflight w1 = 0%nat ->
            worker_items c1 ++ items (st w1) = accepted false acts ->
            worker_items c1 = accepted false acts).
  { intros w1 c1 (_ & _ & Hp) Hk Hj He.
    destruct (items (st w1)) as [|i l] eqn:Hl;
      [rewrite app_nil_r in He; exact He|].
    destruct Hp as [Hp|Hp]; [discriminate | lia | lia]. }
  split; [exact (perform_worker_function acts w0 w cs Hw0 Hn H)|].
  split; [exact Hi|]; split; [intros; eapply Hrest; eauto|].
  destruct (settles (backlog w) w (le_n _) Ht)
    as (evs' & w' & cs' & Hf & Hr & Hk & Hj).
  exists evs', w', cs'; repeat split; auto.
  assert (Hn' : Forall (fun a => orderly a = true) (map Does evs')).
  { apply Forall_map; eapply Forall_impl; [|exact Hf].
    apply progress_orderly. }
  rewrite <- perform_does in Hr.
  destruct (perform_orderly (map Does evs') w w' cs' Ht Hn' Hr) as (Ht' & Hi').
  rewrite (accepted_progress evs' _ Hf), app_nil_r in Hi'.
  apply (Hrest w' (cs ++ cs') Ht' Hk Hj).
  rewrite worker_items_app, <- app_assoc, Hi'; exact Hi.
Qed.

Lemma dispatch_is_fifo_once_each_witness :
  exists w cs,
    perform fresh orderly_life = Some (w, cs) /\
    accepted false orderly_life = [VStr "a"; VStr "b"; VStr "c"] /\
    worker_items cs = [VStr "a"; VStr "b"] /\
    worker_items cs ++ items (st w) = accepted false orderly_life /\
    exists evs' w' cs',
      run w evs' = Some (w', cs') /\
      worker_items (cs ++ cs') = accepted false orderly_life.
Proof.
  do 2 eexists; split; [vm_compute; reflexivity|]; split; [reflexivity|].
  split; [reflexivity|].
  destruct (dispatch_is_fifo_once_each [] fresh orderly_life _ _
              eq_refl eq_refl ltac:(repeat constructor) eq_refl)
    as (_ & Hi & _ & evs' & w' & cs' & _ & Hr & _ & _ & Hall).
  split; [exact Hi|].
  exists evs', w', cs'; split; [exact Hr | exact Hall].
Defined.

(** ** The earlier revision *)

(** In the earlier revision [close()] never invokes the completion
    callback, not even on an idle queue. *)
Lemma legacy_close_is_silent : forall q : Legacy.Queue,
  Legacy.closed (Legacy.options (fst (Legacy.close q))) = true /\
  snd (Legacy.close q) = [].
Proof. intros q; split; reflexivity. Qed.

(** C5: the code of src/queue.js at the failing input.  A queue is
    created, given a completion callback and closed, with nothing running
    and nothing pending: [close()] of src/queue.js sets the closed flag
    and calls nothing, while [close()] of the later revision calls the
    callback within the call, as its comment and the test suite ask. *)
Theorem legacy_close_of_idle_queue_calls_nothing :
  Legacy.run Legacy.fresh legacy_configured_then_closed =
    Some (Legacy.mkWorld
            (Legacy.mkQueue (Legacy.mkOptions true (Fin 10) noop (VFun 1)) [] 0)
            0%nat 0%nat,
          []) /\
  run fresh (map lift legacy_configured_then_closed) =
    Some (mkWorld (mkQueue (mkOptions (Fin 10) noop (VFun 1)) true [] 0)
                  0%nat 0%nat,
          [CallbackCall (VFun 1) []]).
Proof. split; reflexivity. Qed.

(** * Further properties of the code *)

(** ** The running count, errors and the closed flag *)

Lemma Step_running_balance : forall w e w' cs,
  Step w e w' cs ->
  running (st w') - Z.of_nat (inflight w')
  = running (st w) - Z.of_nat (inflight w)
    + Z.of_nat (List.length (reported_errors [e])).
Proof.
  intros w e w' cs Hs.
  step_cases Hs; cbn [reported_errors];
    repeat match goal with
           | Ht : truthy _ = _ |- _ => rewrite Ht; clear Ht
           end;
    cbn [List.length]; lia.
Qed.

Lemma run_running_balance : forall evs w w' cs,
  run w evs = Some (w', cs) ->
  running (st w') - Z.of_nat (inflight w')
  = running (st w) - Z.of_nat (inflight w)
    + Z.of_nat (List.length (reported_errors evs)).
Proof.
  induction evs as [|e evs IH]; intros w w' cs H.
  - injection H as <- <-; simpl; lia.
  - run_step H w1 cs1 cs2 Hs Hrun.
    rewrite reported_errors_cons, length_app.
    rewrite (IH _ _ _ Hrun), (Step_running_balance _ _ _ _ Hs); lia.
Qed.

(** X1: in every state a new queue can reach, the running count is the
    number of completion handlers still outstanding plus the number of
    errors workers have reported so far: an item whose worker reports an
    error keeps its slot for ever, also after [open()]. *)
Theorem running_counts_outstanding_and_failed :
  forall (evs : list event) (w : World) (cs : list call),
  run fresh evs = Some (w, cs) ->
  running (st w)
  = Z.of_nat (inflight w) + Z.of_nat (List.length (reported_errors evs)).
Proof.
  intros evs w cs H.
  pose proof (run_running_balance evs fresh w cs H) as Hb.
  simpl in Hb; lia.
Qed.

Lemma running_counts_outstanding_and_failed_witness :
  exists w cs,
    run fresh abort_reopen = Some (w, cs) /\
    inflight w = 0%nat /\
    running (st w)
    = Z.of_nat (inflight w)
      + Z.of_nat (List.length (reported_errors abort_reopen)).
Proof.
  do 2 eexists; split; [vm_compute; reflexivity|]; split; [reflexivity|].
  eapply running_counts_outstanding_and_failed; vm_compute; reflexivity.
Defined.

(** X2: once a worker has reported an error, the completion callback is
    never again invoked without an argument, whatever follows: successful
    completions, [close()], and also [open()] followed by new work. *)
Theorem no_drain_after_abort :
  forall (pre post : list event) (err : value)
         (w1 w2 : World) (cs1 cs2 : list call),
  run fresh pre = Some (w1, cs1) ->
  truthy err = true ->
  run w1 (Done err :: post) = Some (w2, cs2) ->
  drain_calls cs2 = [].
Proof.
  intros pre post err w1 w2 cs1 cs2 Hpre Herr H.
  pose proof (run_counted pre fresh w1 cs1 Hpre counted_fresh) as Hc.
  unfold counted in Hc.
  run_step H w3 cs3 cs4 Hs Hrun.
  rewrite drain_calls_app.
  step_cases Hs; try congruence.
  apply aborted_no_drain in Hrun; [rewrite Hrun; reflexivity | simpl; lia].
Qed.

Lemma no_drain_after_abort_witness :
  exists w1 cs1 w2 cs2,
    run fresh two_in_flight = Some (w1, cs1) /\
    run w1 (Done (VStr "e1") :: reopened_after_abort) = Some (w2, cs2) /\
    callback_args cs2 = [[VStr "e1"]] /\
    drain_calls cs2 = [].
Proof.
  do 4 eexists.
  split; [vm_compute; reflexivity|].
  split; [vm_compute; reflexivity|].
  split; [reflexivity|].
  eapply (no_drain_after_abort two_in_flight reopened_after_abort
            (VStr "e1"));
    [vm_compute; reflexivity | reflexivity | vm_compute; reflexivity].
Defined.

(** X3: the completion callback is invoked with an argument exactly once
    for every truthy error a worker reports, in the order of the reports
    and with that very error as its only argument; nothing else ever
    passes it an argument. *)
Theorem abort_calls_are_the_reported_errors :
  forall (evs : list event) (w w' : World) (cs : list call),
  run w evs = Some (w', cs) ->
  abort_calls cs = reported_errors evs.
Proof. intros evs w w' cs H; exact (run_abort_calls evs w w' cs H). Qed.

Lemma abort_calls_are_the_reported_errors_witness :
  exists w cs,
    run fresh both_fail = Some (w, cs) /\
    abort_calls cs = [[VStr "e1"]; [VStr "e2"]].
Proof.
  do 2 eexists; split; [vm_compute; reflexivity|].
  apply (abort_calls_are_the_reported_errors both_fail fresh
           (mkWorld (mkQueue (mkOptions (Fin 10) noop noop) true [] 2)
                    0%nat 0%nat)).
  reflexivity.
Defined.

Lemma Step_flag : forall w e w' cs,
  Step w e w' cs -> isClosed (st w') = flag_after (isClosed (st w)) [e].
Proof.
  intros w e w' cs Hs.
  step_cases Hs; config_cases; cbn [flag_after];
    repeat match goal with
           | Ht : truthy _ = _ |- _ => rewrite Ht; clear Ht
           end;
    reflexivity.
Qed.

Lemma flag_after_cons : forall c e evs,
  flag_after c (e :: evs) = flag_after (flag_after c [e]) evs.
Proof. intros c [[] args| |err] evs; reflexivity. Qed.

(** X4: the closed flag is changed by [close()], by [open()] and by a
    worker-reported error only: after any execution [isClosed()] returns
    what the last of these events left, or the value before if there was
    none ([add], [clear], the setters, dispatches and successful
    completions never change it). *)
Theorem isClosed_follows_open_close_abort :
  forall (evs : list event) (w w' : World) (cs : list call) (args : list value),
  run w evs = Some (w', cs) ->
  ret (isClosed_m args w')
  = RetValue (VBool (flag_after (isClosed (st w)) evs)) /\
  next (isClosed_m args w') = w' /\
  calls (isClosed_m args w') = [].
Proof.
  intros evs w w' cs args H.
  split; [|split; reflexivity].
  unfold isClosed_m, returns; cbn [ret]; do 2 f_equal.
  revert w w' cs H; induction evs as [|e evs IH]; intros w w' cs H.
  - injection H as <- <-; reflexivity.
  - run_step H w1 cs1 cs2 Hs Hrun.
    rewrite flag_after_cons, <- (Step_flag _ _ _ _ Hs); eauto.
Qed.

Lemma isClosed_follows_open_close_abort_witness :
  exists w cs,
    run fresh [Call MClose []; Call MClear []; Call MOpen [];
               Call MAdd [VStr "a"]; Tick; Done (VNum (Fin 1))]
      = Some (w, cs) /\
    ret (isClosed_m [] w) = RetValue (VBool true).
Proof.
  do 2 eexists; split; [vm_compute; reflexivity|].
  apply (isClosed_follows_open_close_abort
           [Call MClose []; Call MClear []; Call MOpen [];
            Call MAdd [VStr "a"]; Tick; Done (VNum (Fin 1))]
           fresh _ [CallbackCall noop []; WorkerCall noop (VStr "a");
                    CallbackCall noop [VNum (Fin 1)]] []).
  reflexivity.
Defined.

(** ** Configuration *)

(** X5: [options(o)] with [o] neither [undefined] nor [null] is a
    defensive merge: concurrency, worker and callback each take the
    property of [o] of that name if it is a number (resp. a function) and
    keep their value otherwise, so unknown keys and ill-typed values are
    ignored; nothing else of the queue changes, no user code runs and the
    queue is returned.  (An object whose own property [hasOwnProperty]
    hides the method the code calls is outside the model.) *)
Theorem options_setter_is_defensive_merge :
  forall (o : value) (rest : list value) (w : World),
  nullish o = false ->
  has_own o "hasOwnProperty" = false ->
  options_m (o :: rest) w
  = Returns (mkRes (set_options (merged o (options (st w))) w) [] RetQueue).
Proof.
  intros o rest w Hn _; apply options_m_merged; exact Hn.
Qed.

Lemma options_setter_is_defensive_merge_witness :
  options_m [validOptions] fresh
    = Returns (mkRes (set_options (mkOptions (Fin 3) (VFun 2) (VFun 1)) fresh)
                     [] RetQueue) /\
  options_m [bogusOptions] fresh = Returns (mkRes fresh [] RetQueue) /\
  options_m [VObj [("concurrency"%string, VStr "4");
                   ("worker"%string, VNull)]] fresh
    = Returns (mkRes fresh [] RetQueue).
Proof.
  split; [|split].
  - apply (options_setter_is_defensive_merge validOptions [] fresh);
      reflexivity.
  - apply (options_setter_is_defensive_merge bogusOptions [] fresh);
      reflexivity.
  - apply (options_setter_is_defensive_merge
             (VObj [("concurrency"%string, VStr "4");
                    ("worker"%string, VNull)]) [] fresh); reflexivity.
Defined.

(** X6: the snapshot [options()] returns holds the three current
    options, and feeding it back is the identity: [options(options())]
    leaves the queue exactly as it was. *)
Theorem options_snapshot_round_trip : forall (w : World),
  options_m [] w = Returns (mkRes w [] (RetValue (options_copy w))) /\
  get_prop (options_copy w) "concurrency" = VNum (concurrency (options (st w))) /\
  get_prop (options_copy w) "worker" = worker (options (st w)) /\
  get_prop (options_copy w) "callback" = callback (options (st w)) /\
  options_m [options_copy w] w = Returns (mkRes w [] RetQueue).
Proof.
  intros w; repeat split.
  rewrite options_m_merged by reflexivity.
  unfold merged, options_copy; cbn [get_prop lookup String.eqb Ascii.eqb Bool.eqb].
  destruct w as [[[c f g] cl i r] t n]; cbn [st options worker callback concurrency].
  destruct (is_function f), (is_function g); reflexivity.
Qed.

(** X7: what [options(o)] stores is what [options()] then returns: when
    [o] carries a number and two functions under the three keys, the
    snapshot taken afterwards holds exactly these, whatever else [o]
    carries (short of hiding [hasOwnProperty]) and whatever the
    configuration was. *)
Theorem options_set_then_get :
  forall (o : value) (w : World) (n : number) (f g : nat),
  has_own o "hasOwnProperty" = false ->
  get_prop o "concurrency" = VNum n ->
  get_prop o "worker" = VFun f ->
  get_prop o "callback" = VFun g ->
  exists r,
    options_m [o] w = Returns r /\
    options_copy (next r)
    = VObj [("concurrency"%string, VNum n); ("worker"%string, VFun f);
            ("callback"%string, VFun g)].
Proof.
  intros o w n f g Hh Hc Hw Hb.
  assert (Hn : nullish o = false)
    by (destruct o; try discriminate Hc; reflexivity).
  eexists; split; [apply options_m_merged; assumption|].
  unfold options_copy, merged; cbn [next st options set_options concurrency worker callback].
  rewrite Hc, Hw, Hb; reflexivity.
Qed.

Lemma options_set_then_get_witness :
  exists r,
    options_m [validOptions] fresh = Returns r /\
    options_copy (next r)
    = VObj [("concurrency"%string, VNum (Fin 3)); ("worker"%string, VFun 2);
            ("callback"%string, VFun 1)].
Proof.
  apply (options_set_then_get validOptions fresh (Fin 3) 2%nat 1%nat);
    reflexivity.
Defined.

(** X8: each single setter ignores a value of the wrong type: [worker(v)]
    and [callback(v)] with [v] not a function, and [concurrency(v)] with
    [v] not a number, leave the queue exactly as it was (also when [v] is
    [undefined], which is not the getter form) and return the queue. *)
Theorem setters_ignore_ill_typed_values :
  forall (v : value) (rest : list value) (w : World),
  (is_function v = false ->
   worker_m (v :: rest) w = mkRes w [] RetQueue /\
   callback_m (v :: rest) w = mkRes w [] RetQueue) /\
  ((forall n, v <> VNum n) ->
   concurrency_m (v :: rest) w = mkRes w [] RetQueue).
Proof.
  intros v rest w; split.
  - intros Hf; unfold worker_m, callback_m; rewrite Hf; split; reflexivity.
  - intros Hn; unfold concurrency_m; destruct v; try reflexivity.
    exfalso; apply (Hn n); reflexivity.
Qed.

Lemma setters_ignore_ill_typed_values_witness :
  worker_m [VUndefined] fresh = mkRes fresh [] RetQueue /\
  callback_m [VUndefined] fresh = mkRes fresh [] RetQueue /\
  concurrency_m [VStr "3"] fresh = mkRes fresh [] RetQueue.
Proof.
  split; [|split].
  - apply (proj1 (setters_ignore_ill_typed_values VUndefined [] fresh));
      reflexivity.
  - apply (proj1 (setters_ignore_ill_typed_values VUndefined [] fresh));
      reflexivity.
  - apply (proj2 (setters_ignore_ill_typed_values (VStr "3") [] fresh));
      discriminate.
Defined.

(** X9: each accessor returns what its setter stored and leaves the two
    other options alone: after [worker(f)], [callback(g)] or
    [concurrency(n)] with a function (resp. a number), the getter of that
    option returns it and the getters of the others return what they
    returned before. *)
Theorem accessors_round_trip :
  forall (f : nat) (n : number) (rest : list value) (w : World),
  (ret (worker_m [] (next (worker_m (VFun f :: rest) w))) = RetValue (VFun f) /\
   ret (callback_m [] (next (worker_m (VFun f :: rest) w))) = ret (callback_m [] w) /\
   ret (concurrency_m [] (next (worker_m (VFun f :: rest) w)))
     = ret (concurrency_m [] w)) /\
  (ret (callback_m [] (next (callback_m (VFun f :: rest) w))) = RetValue (VFun f) /\
   ret (worker_m [] (next (callback_m (VFun f :: rest) w))) = ret (worker_m [] w) /\
   ret (concurrency_m [] (next (callback_m (VFun f :: rest) w)))
     = ret (concurrency_m [] w)) /\
  (ret (concurrency_m [] (next (concurrency_m (VNum n :: rest) w)))
     = RetValue (VNum n) /\
   ret (worker_m [] (next (concurrency_m (VNum n :: rest) w)))
     = ret (worker_m [] w) /\
   ret (callback_m [] (next (concurrency_m (VNum n :: rest) w)))
     = ret (callback_m [] w)).
Proof. intros f n rest w; repeat split. Qed.

(** X10: [options(undefined)] and [options(null)] throw, before anything
    is changed, and so does constructing a queue with such an argument;
    the constructor called without argument, or with any other value that
    does not hide [hasOwnProperty], returns a queue. *)
Theorem construction_throws_on_nullish_only :
  forall (v : value) (rest : list value) (w : World),
  has_own v "hasOwnProperty" = false ->
  (nullish v = true ->
   options_m (v :: rest) w = Throws /\
   create (v :: rest) = None /\
   step w (Call MOptions (v :: rest)) = Some (w, [])) /\
  (nullish v = false -> create (v :: rest) <> None) /\
  create [] = Some fresh.
Proof.
  intros v rest w Hh; repeat split.
  - destruct v; try discriminate; reflexivity.
  - destruct v; try discriminate; reflexivity.
  - destruct v; try discriminate; reflexivity.
  - intros Hn; unfold create.
    rewrite options_m_merged by assumption.
    discriminate.
Qed.

Lemma construction_throws_on_nullish_only_witness :
  create [VUndefined] = None /\ create [VNull] = None /\
  create [bogusOptions] <> None.
Proof.
  split; [|split].
  - apply (proj1 (construction_throws_on_nullish_only VUndefined [] fresh
                    eq_refl)); reflexivity.
  - apply (proj1 (construction_throws_on_nullish_only VNull [] fresh
                    eq_refl)); reflexivity.
  - apply (proj1 (proj2 (construction_throws_on_nullish_only bogusOptions []
                           fresh eq_refl))); reflexivity.
Defined.

(** X11: whatever options a queue is constructed with, it starts open,
    empty and idle, with no dispatch attempt scheduled; its configuration
    is the defaults (concurrency 10, no-op worker and callback)
    overridden by the well-typed recognized options, so options without
    any recognized key give the default queue. *)
Theorem constructed_queue_is_open_and_idle :
  forall (args : list value) (w0 : World),
  has_own (arg0 args) "hasOwnProperty" = false ->
  create args = Some w0 ->
  isClosed (st w0) = false /\
  items (st w0) = [] /\
  running (st w0) = 0 /\
  ticks w0 = 0%nat /\
  inflight w0 = 0%nat /\
  options (st w0)
  = match args with
    | [] => mkOptions (Fin 10) noop noop
    | v :: _ => merged v (mkOptions (Fin 10) noop noop)
    end.
Proof.
  intros args w0 Hh H; unfold create in H.
  destruct args as [|v rest]; [injection H as <-; repeat split|].
  destruct (nullish v) eqn:Hn.
  - destruct v; try discriminate Hn; discriminate H.
  - rewrite options_m_merged in H by assumption.
    injection H as <-; repeat split.
Qed.

Lemma constructed_queue_is_open_and_idle_witness :
  create [validOptions]
    = Some (set_options (mkOptions (Fin 3) (VFun 2) (VFun 1)) fresh) /\
  create [bogusOptions] = Some fresh.
Proof.
  assert (Hshape : forall v w0,
            has_own v "hasOwnProperty" = false ->
            create [v] = Some w0 ->
            w0 = set_options (merged v (mkOptions (Fin 10) noop noop)) fresh).
  { intros v w0 Hh Hc.
    destruct (constructed_queue_is_open_and_idle [v] w0 Hh Hc)
      as (H1 & H2 & H3 & H4 & H5 & H6).
    destruct w0 as [[o c i r] t n]; simpl in *; subst; reflexivity. }
  split.
  - destruct (create [validOptions]) as [w0|] eqn:Hc; [|discriminate Hc].
    rewrite (Hshape validOptions w0 eq_refl Hc); reflexivity.
  - destruct (create [bogusOptions]) as [w0|] eqn:Hc; [|discriminate Hc].
    rewrite (Hshape bogusOptions w0 eq_refl Hc); reflexivity.
Defined.

(** X12: reconfiguring never disturbs the work in progress: a call of
    [worker], [callback], [concurrency], [options] or [isClosed], with
    any arguments (a throwing [options] call included), leaves the
    pending items, the running count, the closed flag, the scheduled
    dispatch attempts and the outstanding handlers as they were and runs
    no user code; without argument (the getter form) it leaves the whole
    state as it was.  (The argument is a plain value: an object hiding
    [hasOwnProperty] is outside the model.) *)
Theorem configuration_calls_leave_work_alone :
  forall (m : method) (args : list value) (w w' : World) (cs : list call),
  config_method m = true ->
  has_own (arg0 args) "hasOwnProperty" = false ->
  step w (Call m args) = Some (w', cs) ->
  cs = [] /\
  items (st w') = items (st w) /\
  running (st w') = running (st w) /\
  isClosed (st w') = isClosed (st w) /\
  ticks w' = ticks w /\
  inflight w' = inflight w /\
  (args = [] -> w' = w).
Proof.
  intros m args w w' cs Hm _ H.
  destruct (step_config m args w w' cs Hm H) as [Hcs [o [Hw' Hl]]].
  split; [exact Hcs|].
  repeat split; try (rewrite Hw'; reflexivity).
  intros ->; destruct m; try discriminate Hm; simpl in H; congruence.
Qed.

Lemma configuration_calls_leave_work_alone_witness :
  exists w w' cs,
    run fresh two_in_flight = Some (w, cs) /\
    step w (Call MOptions [validOptions]) = Some (w', []) /\
    items (st w') = items (st w) /\
    running (st w') = 2 /\
    inflight w' = 2%nat.
Proof.
  do 3 eexists; split; [vm_compute; reflexivity|].
  split; [vm_compute; reflexivity|].
  match goal with
  | |- items (st ?w') = items (st ?w) /\ _ =>
      destruct (configuration_calls_leave_work_alone MOptions [validOptions]
                  w w' [] eq_refl eq_refl eq_refl)
        as (_ & Hi & Hr & _ & _ & Hf & _)
  end.
  split; [exact Hi|]; split; [rewrite Hr; reflexivity | rewrite Hf; reflexivity].
Defined.

(** The guards are in the setters alone: a number written to
    [this.callback] by the worker is what the error path then calls (a
    TypeError in the source). *)
Lemma written_number_is_called :
  perform fresh callback_overwritten =
    Some (mkWorld (mkQueue (mkOptions (Fin 10) noop (VNum (Fin 42))) true [] 1)
                  0%nat 0%nat,
          [WorkerCall noop (VStr "a");
           CallbackCall (VNum (Fin 42)) [VStr "e"]]).
Proof. reflexivity. Qed.



(** ** What the worker receives *)

Lemma subseq_refl : forall {A : Type} (l : list A), subseq l l.
Proof. induction l; constructor; assumption. Qed.

Lemma subseq_nil_l : forall {A : Type} (l : list A), subseq [] l.
Proof. induction l; constructor; assumption. Qed.

Lemma subseq_app : forall {A : Type} (l1 l2 l3 l4 : list A),
  subseq l1 l2 -> subseq l3 l4 -> subseq (l1 ++ l3) (l2 ++ l4).
Proof.
  intros A l1 l2 l3 l4 H12 H34; induction H12; simpl;
    try constructor; assumption.
Qed.

Lemma subseq_trans : forall {A : Type} (l2 l3 : list A),
  subseq l2 l3 -> forall l1, subseq l1 l2 -> subseq l1 l3.
Proof.
  intros A l2 l3 H23; induction H23; intros l0 H.
  - exact H.
  - constructor; auto.
  - inversion H; subst; [apply subseq_skip | apply subseq_keep]; auto.
Qed.

Lemma subseq_app_l : forall {A : Type} (l1 l2 l : list A),
  subseq (l1 ++ l2) l -> subseq l1 l.
Proof.
  intros A l1 l2 l H.
  apply (subseq_trans (l1 ++ l2) l H).
  rewrite <- (app_nil_r l1) at 1.
  apply subseq_app; [apply subseq_refl | apply subseq_nil_l].
Qed.

Lemma add_args_cons : forall e evs,
  add_args (e :: evs) = add_args [e] ++ add_args evs.
Proof. intros [[] args| |err] evs; reflexivity. Qed.

Lemma Step_subseq : forall w e w' cs,
  Step w e w' cs ->
  subseq (worker_items cs ++ items (st w')) (items (st w) ++ add_args [e]).
Proof.
  intros w e w' cs Hs.
  step_cases Hs; config_cases; cbn [worker_items add_args app];
    rewrite ?app_nil_r;
    try match goal with
        | Hi : items _ = _ :: _ |- _ => rewrite Hi
        end;
    try apply subseq_refl; try apply subseq_nil_l.
  rewrite <- (app_nil_r (items (st w'))) at 1.
  apply subseq_app; [apply subseq_refl | apply subseq_nil_l].
Qed.

Lemma run_subseq : forall evs w w' cs,
  run w evs = Some (w', cs) ->
  subseq (worker_items cs ++ items (st w')) (items (st w) ++ add_args evs).
Proof.
  induction evs as [|e evs IH]; intros w w' cs H.
  - injection H as <- <-; simpl; rewrite app_nil_r; apply subseq_refl.
  - run_step H w1 cs1 cs2 Hs Hrun.
    replace (worker_items (cs1 ++ cs2) ++ items (st w'))
      with (worker_items cs1 ++ (worker_items cs2 ++ items (st w')))
      by (rewrite worker_items_app, <- app_assoc; reflexivity).
    replace (items (st w) ++ add_args (e :: evs))
      with ((items (st w) ++ add_args [e]) ++ add_args evs)
      by (rewrite (add_args_cons e evs), app_assoc; reflexivity).
    apply (subseq_trans ((worker_items cs1 ++ items (st w1)) ++ add_args evs)).
    + apply subseq_app; [apply Step_subseq; exact Hs | apply subseq_refl].
    + rewrite <- app_assoc.
      apply subseq_app; [apply subseq_refl | apply IH; exact Hrun].
Qed.

(** X14: in every execution, errors, [clear], [close] and [open]
    included, what the worker has received followed by what is still
    pending is the items pending at the start followed by the values
    passed to [add], with some left out and the order kept: the queue
    never invents, duplicates or reorders an item. *)
Theorem worker_receives_added_items_in_order :
  forall (evs : list event) (w w' : World) (cs : list call),
  run w evs = Some (w', cs) ->
  subseq (worker_items cs ++ items (st w')) (items (st w) ++ add_args evs).
Proof. exact run_subseq. Qed.

Lemma worker_receives_added_items_in_order_witness :
  exists w cs,
    run fresh busy_life = Some (w, cs) /\
    worker_items cs = [VStr "a"; VStr "d"; VStr "f"] /\
    add_args busy_life
    = [VStr "a"; VStr "b"; VStr "c"; VStr "d"; VStr "e"; VStr "f"; VStr "g"] /\
    subseq (worker_items cs ++ items (st w)) (add_args busy_life).
Proof.
  do 2 eexists; split; [vm_compute; reflexivity|].
  split; [reflexivity|]; split; [reflexivity|].
  apply (worker_receives_added_items_in_order busy_life fresh).
  vm_compute; reflexivity.
Defined.

(** X15: what [clear()] or an abort throws away is never dispatched
    later: after such an event the worker only receives values passed to
    [add] afterwards. *)
Theorem discarded_items_are_never_dispatched :
  forall (e : event) (evs : list event) (w w1 w' : World) (cs1 cs : list call),
  discards e = true ->
  step w e = Some (w1, cs1) ->
  run w1 evs = Some (w', cs) ->
  worker_items cs1 = [] /\ subseq (worker_items cs) (add_args evs).
Proof.
  intros e evs w w1 w' cs1 cs Hd Hs Hrun.
  apply step_Step in Hs.
  assert (Hnil : worker_items cs1 = [] /\ items (st w1) = []).
  { step_cases Hs; config_cases; try discriminate Hd; auto;
      simpl in Hd; congruence. }
  destruct Hnil as [Hw Hi]; split; [exact Hw|].
  pose proof (run_subseq evs w1 w' cs Hrun) as Hsub.
  rewrite Hi in Hsub; simpl in Hsub.
  exact (subseq_app_l _ _ _ Hsub).
Qed.

Lemma discarded_items_are_never_dispatched_witness :
  exists w1 w' cs,
    run fresh one_running_one_pending
      = Some (one_running_world, [WorkerCall noop (VStr "a")]) /\
    step one_running_world (Call MClear []) = Some (w1, []) /\
    run w1 close_and_finish = Some (w', cs) /\
    cs = [CallbackCall noop []] /\
    subseq (worker_items cs) (add_args close_and_finish).
Proof.
  do 3 eexists.
  split; [vm_compute; reflexivity|].
  split; [vm_compute; reflexivity|].
  split; [vm_compute; reflexivity|].
  split; [reflexivity|].
  eapply (discarded_items_are_never_dispatched (Call MClear [])
            close_and_finish one_running_world);
    [reflexivity | vm_compute; reflexivity | vm_compute; reflexivity].
Defined.

(** ** Reporting the drain *)

Lemma Step_undone : forall w e w1 cs1,
  Step w e w1 cs1 -> discards e = false -> counted w -> undone w ->
  drain_calls cs1 <> [] \/ undone w1.
Proof.
  unfold counted, undone; intros w e w1 cs1 Hs Hd Hc Hu.
  step_cases Hs; config_cases; try discriminate Hd;
    try (left; discriminate);
    try (right; assumption);
    try (right; left; reflexivity);
    try (simpl in Hd; congruence).
  - right; left; assumption.
  - right; right; tauto.
  - right; right; right; lia.
  - right; tauto.
  - right; right; right; lia.
Qed.

Lemma run_undone : forall evs w w' cs,
  Forall (fun e => discards e = false) evs ->
  counted w -> undone w ->
  run w evs = Some (w', cs) ->
  ~ undone w' ->
  drain_calls cs <> [].
Proof.
  induction evs as [|e evs IH]; intros w w' cs Hd Hc Hu H Hn.
  - injection H as <- <-; contradiction.
  - run_step H w1 cs1 cs2 Hs Hrun.
    inversion Hd as [|e0 evs0 Hd1 Hd2]; subst.
    rewrite drain_calls_app; intros Happ; apply app_eq_nil in Happ.
    destruct Happ as [H1 H2].
    destruct (Step_undone w e w1 cs1 Hs Hd1 Hc Hu) as [Hf|Hu1];
      [contradiction|].
    apply (IH w1 w' cs2 Hd2 (Step_counted _ _ _ _ Hs Hc) Hu1 Hrun Hn H2).
Qed.

Lemma nominal_facts : forall evs,
  Forall (fun e => nominal e = true) evs ->
  opens evs = 0%nat /\ reported_errors evs = [] /\
  Forall (fun e => discards e = false) evs /\
  flag_after true evs = true /\
  ((0 < closes evs)%nat -> flag_after false evs = true).
Proof.
  induction evs as [|e evs IH]; intros H.
  - repeat split; auto; unfold closes; simpl; lia.
  - inversion H as [|e0 evs0 H1 H2]; subst.
    destruct (IH H2) as (Ho & He & Hd & Ht & Hf).
    destruct e as [[] args| |err]; try discriminate H1;
      count_events; cbn [reported_errors flag_after];
      repeat split; auto;
      try (constructor; [reflexivity | assumption]).
    + simpl in H1; destruct (truthy err); [discriminate | assumption].
    + constructor; [|assumption].
      simpl in H1; simpl; destruct (truthy err); [discriminate | reflexivity].
    + simpl in H1; destruct (truthy err); [discriminate | assumption].
    + simpl in H1; destruct (truthy err); [discriminate | assumption].
Qed.

Lemma run_flag : forall evs w w' cs,
  run w evs = Some (w', cs) ->
  isClosed (st w') = flag_after (isClosed (st w)) evs.
Proof.
  induction evs as [|e evs IH]; intros w w' cs H.
  - injection H as <- <-; reflexivity.
  - run_step H w1 cs1 cs2 Hs Hrun.
    rewrite flag_after_cons, <- (Step_flag _ _ _ _ Hs); eauto.
Qed.

(** X16: in the nominal life of a queue (a created queue whose limit
    lets an item through; items added, one [close()], dispatch attempts
    run, workers completing without error), once the queue is at rest
    the completion callback has been invoked exactly once, without
    argument: either by [close()] itself, if everything was finished by
    then, or by the last completion. *)
Theorem drain_is_reported_exactly_once :
  forall (args : list value) (w0 : World) (evs : list event)
         (w : World) (cs : list call),
  create args = Some w0 ->
  ge_js 0 (limit w0) = false ->
  Forall (fun e => nominal e = true) evs ->
  closes evs = 1%nat ->
  run w0 evs = Some (w, cs) ->
  ticks w = 0%nat -> inflight w = 0%nat ->
  callback_args cs = [[]].
Proof.
  intros args w0 evs w cs Hcr Hg Hn Hcl H Hk Hj.
  pose proof (on_track_created args w0 Hcr Hg) as Ht0.
  destruct (create_shape args w0 Hcr) as [o Hw0].
  destruct (run_on_track evs w0 w cs Ht0 Hn H) as ((Hr & _ & Hp) & _).
  destruct (nominal_facts evs Hn) as (Ho & He & Hd & _ & Hf).
  assert (Hclosed : isClosed (st w) = true).
  { rewrite (run_flag evs w0 w cs H); subst w0; simpl; apply Hf; lia. }
  assert (Hitems : items (st w) = []).
  { destruct (items (st w)) as [|i l]; [reflexivity|].
    destruct Hp as [Hp|Hp]; [discriminate | lia | lia]. }
  assert (Hdrain : drain_calls cs <> []).
  { apply (run_undone evs w0 w cs Hd); auto.
    - subst w0; unfold counted; simpl; lia.
    - left; subst w0; reflexivity.
    - unfold undone; intros [Hu|[Hu|Hu]]; [congruence | congruence | lia]. }
  assert (Hone : (List.length (callback_args cs) <= 1)%nat).
  { apply (one_epoch_at_most_once evs w0 w cs); auto.
    - subst w0; reflexivity.
    - subst w0; simpl; lia.
    - rewrite He; simpl; lia. }
  pose proof (run_abort_calls evs w0 w cs H) as Ha; rewrite He in Ha.
  unfold drain_calls in Hdrain; unfold abort_calls in Ha.
  destruct (callback_args cs) as [|a [|b l]].
  - contradiction Hdrain; reflexivity.
  - destruct a; [reflexivity | discriminate Ha].
  - simpl in Hone; lia.
Qed.

Lemma drain_is_reported_exactly_once_witness :
  exists w cs,
    run fresh whole_life = Some (w, cs) /\
    callback_args cs = [[]].
Proof.
  do 2 eexists; split; [vm_compute; reflexivity|].
  eapply (drain_is_reported_exactly_once [] fresh whole_life);
    [reflexivity | reflexivity | repeat constructor | reflexivity
    | vm_compute; reflexivity | reflexivity | reflexivity].
Defined.

(** X17: only [close()] and a completion report the drain, so the order
    of [clear()] and [close()] matters: when a closed queue with nothing
    running is emptied by [clear()], no callback is invoked by the
    [clear()], nor by anything that follows until the queue is closed
    again or reopened. *)
Theorem clear_after_close_never_reports :
  forall (args : list value) (evs : list event) (w w' : World) (cs : list call),
  isClosed (st w) = true ->
  running (st w) = 0 ->
  inflight w = 0%nat ->
  opens evs = 0%nat -> closes evs = 0%nat ->
  run (next (clear_m args w)) evs = Some (w', cs) ->
  calls (clear_m args w) = [] /\ callback_args cs = [].
Proof.
  intros args evs w w' cs Hc Hr Hf Ho Hcl H; split; [reflexivity|].
  apply (idle_closed_silent evs (next (clear_m args w)) w' cs); auto.
Qed.

Lemma clear_after_close_never_reports_witness :
  exists w' cs,
    run fresh add_then_close = Some (closed_with_pending, []) /\
    run (next (clear_m [] closed_with_pending)) after_the_clear
      = Some (w', cs) /\
    isClosed (st w') = true /\ items (st w') = [] /\ running (st w') = 0 /\
    callback_args cs = [].
Proof.
  do 2 eexists.
  split; [vm_compute; reflexivity|].
  split; [vm_compute; reflexivity|].
  split; [reflexivity|]; split; [reflexivity|]; split; [reflexivity|].
  eapply (clear_after_close_never_reports [] after_the_clear
            closed_with_pending);
    [reflexivity | reflexivity | reflexivity | reflexivity | reflexivity
    | vm_compute; reflexivity].
Defined.

(** ** The concurrency window *)

Lemma ge_js_int : forall r k, ge_js r (Fin (inject_Z k)) = (k <=? r).
Proof.
  intros r k; simpl.
  destruct (Z.leb_spec k r) as [H|H].
  - apply Qle_bool_iff; rewrite <- Zle_Qle; exact H.
  - destruct (Qle_bool (inject_Z k) (inject_Z r)) eqn:Hq; [|reflexivity].
    apply Qle_bool_iff in Hq; rewrite <- Zle_Qle in Hq; lia.
Qed.

Lemma run_adds : forall its w,
  isClosed (st w) = false ->
  run w (adds its)
  = Some (set_ticks (ticks w + List.length its)
            (set_items (items (st w) ++ its) w), []).
Proof.
  induction its as [|x its IH]; intros w Hc.
  - simpl; rewrite app_nil_r, Nat.add_0_r.
    destruct w as [[o c i r] t f]; reflexivity.
  - unfold adds; cbn [map]; fold (adds its).
    rewrite run_cons; cbn [step invoke]; unfold add_m; rewrite Hc.
    cbn [negb returns next calls].
    rewrite IH by exact Hc.
    destruct w as [[o c i r] t f]; simpl.
    rewrite <- app_assoc, Nat.add_succ_r; reflexivity.
Qed.

(** [m] scheduled dispatch attempts in a row, when the gate lets [cap]
    more items through. *)
Lemma run_ticks : forall m w cap,
  (m <= ticks w)%nat ->
  (forall j, (j <= m)%nat ->
     ge_js (running (st w) + Z.of_nat j) (limit w) = negb (j <? cap)%nat) ->
  run w (repeat Tick m)
  = Some (after_dispatching
            (Nat.min m (Nat.min (List.length (items (st w))) cap)) m w,
          map (WorkerCall (worker (options (st w))))
              (firstn (Nat.min m (Nat.min (List.length (items (st w))) cap))
                      (items (st w)))).
Proof.
  induction m as [|m IH]; intros w cap Hm Hg.
  - destruct w as [[o c i r] t f]; unfold after_dispatching; simpl.
    rewrite Z.add_0_r, Nat.sub_0_r, Nat.add_0_r; reflexivity.
  - cbn [repeat]; rewrite run_cons; unfold step.
    destruct (ticks w) as [|t'] eqn:Ht; [lia|].
    pose proof (Hg 0%nat ltac:(lia)) as Hg0.
    rewrite Z.add_0_r in Hg0.
    destruct cap as [|cap'].
    + (* at capacity *)
      rewrite (work_gate_closed (set_ticks t' w)) by (left; exact Hg0).
      rewrite (IH (set_ticks t' w) 0%nat) by (simpl; auto; lia).
      rewrite !Nat.min_0_r.
      destruct w as [[o c i r] t f]; unfold after_dispatching; simpl in *.
      subst t; reflexivity.
    + destruct (items (st w)) as [|x i'] eqn:Hi.
      * (* nothing pending *)
        rewrite (work_gate_closed (set_ticks t' w)) by (right; exact Hi).
        rewrite (IH (set_ticks t' w) (S cap')) by (simpl; auto; lia).
        cbn [st set_ticks]; rewrite Hi; cbn [List.length].
        rewrite !Nat.min_0_l, !Nat.min_0_r.
        destruct w as [[o c i r] t f]; unfold after_dispatching; simpl in *.
        subst t; subst i; reflexivity.
      * (* one item goes through *)
        rewrite (work_dispatch (set_ticks t' w) x i' Hg0 Hi).
        rewrite (IH _ cap').
        -- destruct w as [[o c i r] t f]; unfold after_dispatching; simpl in *.
           subst t; subst i; cbn [List.length Nat.min].
           set (d := Nat.min m (Nat.min (List.length i') cap')).
           rewrite Zpos_P_of_succ_nat.
           replace (r + 1 + Z.of_nat d) with (r + Z.succ (Z.of_nat d)) by lia.
           replace (S (f + d)) with (f + S d)%nat by lia.
           reflexivity.
        -- simpl; lia.
        -- intros j Hj; cbn [st set_inflight set_items set_running set_ticks
                             running limit options].
           pose proof (Hg (S j) ltac:(lia)) as HgS.
           unfold limit.
           replace (running (st w) + 1 + Z.of_nat j)
             with (running (st w) + Z.of_nat (S j)) by lia.
           exact HgS.
Qed.

Lemma window_run : forall o its cap,
  (forall j, (j <= List.length its)%nat ->
     ge_js (Z.of_nat j) (concurrency o) = negb (j <? cap)%nat) ->
  let d := Nat.min (List.length its) cap in
  run (set_options o fresh) (adds its ++ repeat Tick (List.length its))
  = Some (mkWorld (mkQueue o false (skipn d its) (Z.of_nat d)) 0%nat d,
          map (WorkerCall (worker o)) (firstn d its)).
Proof.
  intros o its cap Hg d.
  rewrite run_app, run_adds by reflexivity.
  rewrite (run_ticks (List.length its) _ cap).
  - cbn [st ticks inflight items options running set_ticks set_items
         set_options fresh app after_dispatching].
    replace (Nat.min (List.length its) (Nat.min (List.length its) cap))
      with d by (unfold d; lia).
    unfold after_dispatching; simpl.
    rewrite Nat.sub_diag; reflexivity.
  - simpl; lia.
  - intros j Hj; simpl; apply Hg; exact Hj.
Qed.

(** X18: the concurrency window.  On a newly created queue whose limit
    is the integer [k], after [add] was called for each item of a list
    and the dispatch attempts these calls scheduled have run, the worker
    has received exactly the first [min(n, k)] items, in order, each
    once; that many are running and the others are still pending.  (For
    [k <= 0] that is none.) *)
Theorem concurrency_window :
  forall (args : list value) (w0 : World) (k : Z) (its : list value),
  create args = Some w0 ->
  limit w0 = Fin (inject_Z k) ->
  exists w cs,
    run w0 (adds its ++ repeat Tick (List.length its)) = Some (w, cs) /\
    cs = map (WorkerCall (worker (options (st w0))))
             (firstn (Nat.min (List.length its) (Z.to_nat k)) its) /\
    items (st w) = skipn (Nat.min (List.length its) (Z.to_nat k)) its /\
    running (st w) = Z.of_nat (Nat.min (List.length its) (Z.to_nat k)) /\
    inflight w = Nat.min (List.length its) (Z.to_nat k) /\
    ticks w = 0%nat.
Proof.
  intros args w0 k its Hcr Hl.
  destruct (create_shape args w0 Hcr) as [o ->].
  unfold limit in Hl; simpl in Hl.
  do 2 eexists; split.
  - apply (window_run o its (Z.to_nat k)).
    intros j _; rewrite Hl, ge_js_int.
    destruct (Z.leb_spec k (Z.of_nat j)), (Nat.ltb_spec j (Z.to_nat k));
      simpl; auto; lia.
  - repeat split.
Qed.

Lemma concurrency_window_witness :
  exists w cs,
    run (set_options (mkOptions (Fin 2) (VFun 7) noop) fresh)
        (adds [VStr "a"; VStr "b"; VStr "c"] ++ repeat Tick 3) = Some (w, cs) /\
    cs = [WorkerCall (VFun 7) (VStr "a"); WorkerCall (VFun 7) (VStr "b")] /\
    items (st w) = [VStr "c"] /\
    running (st w) = 2.
Proof.
  destruct (concurrency_window
              [VObj [("concurrency"%string, VNum (Fin 2));
                     ("worker"%string, VFun 7)]]
              (set_options (mkOptions (Fin 2) (VFun 7) noop) fresh)
              2 [VStr "a"; VStr "b"; VStr "c"] eq_refl eq_refl)
    as (w & cs & Hr & Hc & Hi & Hn & _).
  exists w, cs; repeat split; assumption.
Defined.

(** X19: a concurrency of [NaN] or [Infinity] (both of type number, so
    the setter stores them) switches the limit off: after [add] was
    called for each item of a list and the scheduled dispatch attempts
    have run, every item has been handed to the worker and all of them
    are running at once. *)
Theorem nan_or_infinite_concurrency_is_no_limit :
  forall (args : list value) (w0 : World) (its : list value),
  create args = Some w0 ->
  limit w0 = NaN \/ limit w0 = PosInf ->
  exists w cs,
    run w0 (adds its ++ repeat Tick (List.length its)) = Some (w, cs) /\
    cs = map (WorkerCall (worker (options (st w0)))) its /\
    items (st w) = [] /\
    running (st w) = Z.of_nat (List.length its).
Proof.
  intros args w0 its Hcr Hl.
  destruct (create_shape args w0 Hcr) as [o ->].
  unfold limit in Hl; simpl in Hl.
  do 2 eexists; split.
  - apply (window_run o its (S (List.length its))).
    intros j Hj.
    replace (j <? S (List.length its))%nat with true
      by (symmetry; apply Nat.ltb_lt; lia).
    destruct Hl as [-> | ->]; reflexivity.
  - replace (Nat.min (List.length its) (S (List.length its)))
      with (List.length its) by lia.
    rewrite firstn_all, skipn_all; repeat split.
Qed.

Lemma nan_or_infinite_concurrency_is_no_limit_witness :
  exists w cs,
    run (set_options (mkOptions NaN noop noop) fresh)
        (adds [VStr "a"; VStr "b"; VStr "c"] ++ repeat Tick 3) = Some (w, cs) /\
    cs = [WorkerCall noop (VStr "a"); WorkerCall noop (VStr "b");
          WorkerCall noop (VStr "c")] /\
    running (st w) = 3.
Proof.
  destruct (nan_or_infinite_concurrency_is_no_limit
              [VObj [("concurrency"%string, VNum NaN)]]
              (set_options (mkOptions NaN noop noop) fresh)
              [VStr "a"; VStr "b"; VStr "c"] eq_refl (or_introl eq_refl))
    as (w & cs & Hr & Hc & _ & Hn).
  exists w, cs; repeat split; assumption.
Defined.

(** ** Completions and reopening *)

(** X20: a successful completion hands the freed slot on at once: when
    items are pending and the running count less one is under the limit,
    the handler itself dispatches the head item to the worker, so the
    running count is the same after the call as before, one more handler
    is outstanding and no callback is invoked, whether the queue is
    closed or not. *)
Theorem completion_dispatches_next_item :
  forall (err : value) (w : World) (item : value) (rest : list value),
  truthy err = false ->
  items (st w) = item :: rest ->
  ge_js (running (st w) - 1) (limit w) = false ->
  snd (handler err w) = [WorkerCall (worker (options (st w))) item] /\
  items (st (fst (handler err w))) = rest /\
  running (st (fst (handler err w))) = running (st w) /\
  inflight (fst (handler err w)) = S (inflight w) /\
  isClosed (st (fst (handler err w))) = isClosed (st w).
Proof.
  intros err w item rest He Hi Hg.
  unfold handler; rewrite He; cbv zeta.
  cbn [st set_running isClosed items running]; rewrite Hi.
  cbn [is_nil]; rewrite andb_false_r; cbn [andb].
  rewrite (work_dispatch (set_running (running (st w) - 1) w) item rest Hg Hi).
  cbn [fst snd st set_inflight set_items set_running items running inflight
       isClosed options].
  repeat split; lia.
Qed.

Lemma completion_dispatches_next_item_witness :
  snd (handler VUndefined one_running_world)
    = [WorkerCall noop (VStr "b")] /\
  running (st (fst (handler VUndefined one_running_world))) = 1.
Proof.
  destruct (completion_dispatches_next_item VUndefined one_running_world
              (VStr "b") [] eq_refl eq_refl eq_refl) as (Hc & _ & Hr & _).
  split; [exact Hc | exact Hr].
Defined.

(** X21: [open()] resumes the queue whatever closed it ([close()] or an
    abort) and whatever is still running: after [open()], [add] for each
    item of a list, and the dispatch attempts then scheduled, the queue
    is open and the worker has received, in order, the items that were
    still pending followed by the new ones, as many as there were
    attempts, items, and room left under an integer limit [k] (the room
    being [k] less the running count, which still counts the items whose
    workers reported an error). *)
Theorem reopened_queue_resumes_dispatch :
  forall (a its : list value) (w : World) (k : Z),
  limit w = Fin (inject_Z k) ->
  exists w' cs,
    run w (Call MOpen a :: adds its
           ++ repeat Tick (ticks w + 1 + List.length its)) = Some (w', cs) /\
    cs = map (WorkerCall (worker (options (st w))))
             (firstn (Nat.min (ticks w + 1 + List.length its)
                        (Nat.min (List.length (items (st w) ++ its))
                                 (Z.to_nat (k - running (st w)))))
                     (items (st w) ++ its)) /\
    items (st w')
    = skipn (Nat.min (ticks w + 1 + List.length its)
               (Nat.min (List.length (items (st w) ++ its))
                        (Z.to_nat (k - running (st w)))))
            (items (st w) ++ its) /\
    isClosed (st w') = false /\
    ticks w' = 0%nat.
Proof.
  intros a its w k Hl.
  rewrite run_cons; cbn [step invoke open_m returns next calls].
  rewrite run_app, run_adds by reflexivity.
  rewrite (run_ticks (ticks w + 1 + List.length its) _
             (Z.to_nat (k - running (st w)))).
  - do 2 eexists; split; [reflexivity|].
    cbn [st ticks inflight items options running isClosed set_ticks set_items
         set_isClosed after_dispatching app].
    repeat split.
    lia.
  - simpl; lia.
  - intros j _.
    cbn [st set_ticks set_items set_isClosed running limit options].
    unfold limit in Hl |- *; cbn [st set_ticks set_items set_isClosed options].
    rewrite Hl, ge_js_int.
    destruct (Z.leb_spec k (running (st w) + Z.of_nat j)),
             (Nat.ltb_spec j (Z.to_nat (k - running (st w))));
      simpl; auto; lia.
Qed.

Lemma reopened_queue_resumes_dispatch_witness :
  exists w w' cs,
    run fresh (two_in_flight ++ [Call MAdd [VStr "c"]; Done (VStr "e1");
                                 Call MConcurrency [VNum (Fin 3)]])
      = Some (w, [WorkerCall noop (VStr "a"); WorkerCall noop (VStr "b");
                  CallbackCall noop [VStr "e1"]]) /\
    isClosed (st w) = true /\ running (st w) = 2 /\
    run w (Call MOpen [] :: adds [VStr "d"; VStr "e"] ++ repeat Tick 4)
      = Some (w', cs) /\
    cs = [WorkerCall noop (VStr "d")] /\
    items (st w') = [VStr "e"] /\
    isClosed (st w') = false.
Proof.
  exists (mkWorld (mkQueue (mkOptions (Fin 3) noop noop) true [] 2)
                  1%nat 1%nat).
  destruct (reopened_queue_resumes_dispatch [] [VStr "d"; VStr "e"]
              (mkWorld (mkQueue (mkOptions (Fin 3) noop noop) true [] 2)
                       1%nat 1%nat) 3 eq_refl)
    as (w' & cs & Hr & Hc & Hi & Ho & _).
  exists w', cs.
  split; [vm_compute; reflexivity|].
  split; [reflexivity|]; split; [reflexivity|].
  split; [exact Hr|]; split; [exact Hc|]; split; [exact Hi | exact Ho].
Defined.

(** ** The earlier revision, src/queue.js *)

Lemma legacy_step_old : forall (w : World) (e : Legacy.event),
  Legacy.step (old w) e
  = match step w (lift e) with
    | Some (w1, cs1) => Some (old w1, if idle_close w e then [] else cs1)
    | None => None
    end.
Proof.
  intros [[[c f g] cl i r] t n] [m args| |err].
  - destruct m; simpl.
    + destruct args as [|v args']; [reflexivity|].
      simpl; destruct (is_function v); reflexivity.
    + destruct args as [|v args']; [reflexivity|].
      simpl; destruct (is_function v); reflexivity.
    + destruct args as [|[] args']; reflexivity.
    + unfold Legacy.add_m, add_m; simpl; destruct cl; reflexivity.
    + reflexivity.
    + reflexivity.
    + unfold close_m; simpl.
      destruct ((r =? 0) && is_nil i); reflexivity.
  - simpl; destruct t as [|t']; [reflexivity|].
    unfold Legacy.work, work, limit; simpl.
    destruct (ge_js r c); simpl; [reflexivity|].
    destruct i; reflexivity.
  - simpl; destruct n as [|n']; [reflexivity|].
    unfold Legacy.handler, handler; simpl.
    destruct (truthy err); [reflexivity|].
    destruct (cl && is_nil i && (r - 1 =? 0)); [reflexivity|].
    unfold Legacy.work, work, limit; simpl.
    destruct (ge_js (r - 1) c); simpl; [reflexivity|].
    destruct i; reflexivity.
Qed.

(** X22: the seven methods [worker], [callback], [concurrency], [add],
    [clear], [open] and [close], the scheduled dispatch attempts and the
    completions of src/queue.js and of the later revision, step by step.
    On corresponding states each of them is possible in one revision
    exactly when it is in the other, leads to corresponding states and
    makes the same calls to user code, except that [close()] on a queue
    with nothing running and nothing pending invokes the callback in the
    later revision and nothing in queue.js.  The comparison stops there:
    [options()], the constructor and [isClosed()], in which the
    revisions differ as well, are not part of it. *)
Theorem shared_steps_differ_on_idle_close_only :
  forall (w : World) (e : Legacy.event),
  Legacy.step (old w) e
  = match step w (lift e) with
    | Some (w1, cs1) => Some (old w1, if idle_close w e then [] else cs1)
    | None => None
    end.
Proof. exact legacy_step_old. Qed.

Lemma legacy_run_cons : forall w e evs,
  Legacy.run w (e :: evs) =
  match Legacy.step w e with
  | None => None
  | Some (w1, cs1) =>
      match Legacy.run w1 evs with
      | None => None
      | Some (w2, cs2) => Some (w2, cs1 ++ cs2)
      end
  end.
Proof. reflexivity. Qed.

(** X23: hence an execution is possible in queue.js exactly when it is
    in the later revision, both go through corresponding states and hand
    the same items to the same worker in the same order and report the
    same errors; the drains queue.js reports are among those the later
    revision reports. *)
Theorem revisions_run_alike :
  forall (evs : list Legacy.event) (w : World),
  match run w (map lift evs) with
  | None => Legacy.run (old w) evs = None
  | Some (w', cs) =>
      exists cs',
        Legacy.run (old w) evs = Some (old w', cs') /\
        worker_calls cs' = worker_calls cs /\
        abort_calls cs' = abort_calls cs /\
        subseq (drain_calls cs') (drain_calls cs)
  end.
Proof.
  induction evs as [|e evs IH]; intros w.
  - simpl; exists []; repeat split; constructor.
  - cbn [map]; rewrite run_cons, legacy_run_cons.
    rewrite (legacy_step_old w e).
    destruct (step w (lift e)) as [[w1 cs1]|] eqn:Hs; [|reflexivity].
    specialize (IH w1).
    destruct (run w1 (map lift evs)) as [[w2 cs2]|]; [|rewrite IH; reflexivity].
    destruct IH as (cs2' & Hr & Hw & Ha & Hd).
    rewrite Hr.
    exists ((if idle_close w e then [] else cs1) ++ cs2'); split; [reflexivity|].
    unfold worker_calls in *.
    rewrite !filter_app, !abort_calls_app, !drain_calls_app, Hw, Ha.
    destruct (idle_close w e) eqn:Hi.
    + destruct e as [[] args| |err]; try discriminate Hi.
      simpl in Hs, Hi; unfold close_m in Hs; cbn [st set_isClosed running items] in Hs.
      rewrite Hi in Hs; injection Hs as <- <-.
      repeat split.
      apply (subseq_app [] _ _ _); [apply subseq_nil_l | exact Hd].
    + repeat split.
      apply subseq_app; [apply subseq_refl | exact Hd].
Qed.

Lemma legacy_idle_closed_silent : forall evs w w' cs,
  Legacy.closed (Legacy.options (Legacy.st w)) = true ->
  Legacy.items (Legacy.st w) = [] ->
  Legacy.running (Legacy.st w) = 0 ->
  Legacy.inflight w = 0%nat ->
  existsb Legacy.is_open evs = false ->
  Legacy.run w evs = Some (w', cs) ->
  cs = [].
Proof.
  induction evs as [|e evs IH]; intros w w' cs Hc Hi Hr Hf Ho H.
  - injection H as <- <-; reflexivity.
  - rewrite legacy_run_cons in H.
    cbn [existsb] in Ho; apply orb_false_iff in Ho; destruct Ho as [Ho1 Ho2].
    destruct w as [[[cl c f g] i r] t n]; simpl in Hc, Hi, Hr, Hf; subst.
    destruct e as [[] args| |err]; try discriminate Ho1; simpl in H.
    + destruct args as [|v args']; [|simpl in H; destruct (is_function v)];
        (destruct (Legacy.run _ evs) as [[w2 cs2]|] eqn:Hrun; [|discriminate];
         injection H as <- <-; apply IH in Hrun; auto).
    + destruct args as [|v args']; [|simpl in H; destruct (is_function v)];
        (destruct (Legacy.run _ evs) as [[w2 cs2]|] eqn:Hrun; [|discriminate];
         injection H as <- <-; apply IH in Hrun; auto).
    + destruct args as [|[] args'];
        (destruct (Legacy.run _ evs) as [[w2 cs2]|] eqn:Hrun; [|discriminate];
         injection H as <- <-; apply IH in Hrun; auto).
    + destruct (Legacy.run _ evs) as [[w2 cs2]|] eqn:Hrun; [|discriminate].
      injection H as <- <-; apply IH in Hrun; auto.
    + destruct (Legacy.run _ evs) as [[w2 cs2]|] eqn:Hrun; [|discriminate].
      injection H as <- <-; apply IH in Hrun; auto.
    + destruct (Legacy.run _ evs) as [[w2 cs2]|] eqn:Hrun; [|discriminate].
      injection H as <- <-; apply IH in Hrun; auto.
    + destruct t as [|t']; [discriminate|].
      unfold Legacy.work in H; simpl in H; rewrite orb_true_r in H.
      destruct (Legacy.run _ evs) as [[w2 cs2]|] eqn:Hrun; [|discriminate].
      injection H as <- <-; apply IH in Hrun; auto.
    + discriminate.
Qed.

(** X24: in src/queue.js a queue that is closed while nothing is running
    and nothing is pending never reports its completion: neither the
    [close()] nor anything that follows calls the callback or the worker,
    until the queue is reopened. *)
Theorem legacy_idle_close_is_never_reported :
  forall (a : list value) (evs : list Legacy.event)
         (w w' : Legacy.World) (cs : list call),
  Legacy.items (Legacy.st w) = [] ->
  Legacy.running (Legacy.st w) = 0 ->
  Legacy.inflight w = 0%nat ->
  existsb Legacy.is_open evs = false ->
  Legacy.run w (Legacy.LCall Legacy.LClose a :: evs) = Some (w', cs) ->
  cs = [].
Proof.
  intros a evs w w' cs Hi Hr Hf Ho H.
  rewrite legacy_run_cons in H; simpl in H.
  destruct (Legacy.run _ evs) as [[w2 cs2]|] eqn:Hrun; [|discriminate].
  injection H as <- <-.
  apply legacy_idle_closed_silent in Hrun; auto.
Qed.

Lemma legacy_idle_close_is_never_reported_witness :
  exists w' cs,
    Legacy.run Legacy.fresh (Legacy.LCall Legacy.LClose [] :: after_idle_close)
      = Some (w', cs) /\
    cs = [].
Proof.
  do 2 eexists; split; [vm_compute; reflexivity|].
  eapply (legacy_idle_close_is_never_reported [] after_idle_close
            Legacy.fresh);
    [reflexivity | reflexivity | reflexivity | reflexivity
    | vm_compute; reflexivity].
Defined.

(** ** Completion is never reported early *)

(** X25: the completion callback is invoked without argument only at a
    moment when the queue is closed, nothing is pending and nothing is
    running: in any state a new queue can reach, an event that makes such
    a call leaves the closed flag set, no pending item, a running count
    of 0 and no completion handler outstanding. *)
Theorem drain_is_reported_only_when_closed_and_idle :
  forall (pre : list event) (e : event) (w w' : World) (cs0 cs : list call),
  run fresh pre = Some (w, cs0) ->
  step w e = Some (w', cs) ->
  drain_calls cs <> [] ->
  isClosed (st w') = true /\
  items (st w') = [] /\
  running (st w') = 0 /\
  inflight w' = 0%nat.
Proof.
  intros pre e w w' cs0 cs Hpre Hs Hd.
  pose proof (run_counted pre fresh w cs0 Hpre counted_fresh) as Hc.
  unfold counted in Hc.
  apply step_Step in Hs.
  step_cases Hs; try (exfalso; apply Hd; reflexivity);
    repeat split; auto; lia.
Qed.

Lemma drain_is_reported_only_when_closed_and_idle_witness :
  exists w w' cs,
    run fresh [Call MAdd [VStr "a"]; Call MClose []; Tick] = Some (w, cs) /\
    step w (Done VUndefined) = Some (w', [CallbackCall noop []]) /\
    isClosed (st w') = true /\ items (st w') = [] /\
    running (st w') = 0 /\ inflight w' = 0%nat.
Proof.
  do 3 eexists; split; [vm_compute; reflexivity|].
  split; [vm_compute; reflexivity|].
  eapply (drain_is_reported_only_when_closed_and_idle
            [Call MAdd [VStr "a"]; Call MClose []; Tick] (Done VUndefined));
    [vm_compute; reflexivity | vm_compute; reflexivity | discriminate].
Defined.

(** ** Outstanding workers *)

(** X26: the number of worker invocations that have not completed yet
    never exceeds the configured concurrency, as long as every value
    stored as the concurrency, by [concurrency()], by [options()] or by
    user code writing to [this.concurrency], is a number, whole and not
    below the running count at that moment: the outstanding handlers are counted
    in [running], and [running] stays within the limit. *)
Theorem outstanding_workers_within_limit :
  forall (acts : list action) (w : World) (cs : list call),
  never_under fresh acts = true ->
  perform fresh acts = Some (w, cs) ->
  le_js (Z.of_nat (inflight w)) (limit w) = true.
Proof.
  intros acts w cs Hn H.
  destruct (perform_bounded acts fresh w cs bounded_fresh Hn H)
    as (_ & Hle & Hc).
  unfold counted in Hc.
  destruct (limit w) as [q| | |]; simpl in *; auto.
  apply Qle_bool_iff; apply Qle_bool_iff in Hle.
  apply Qle_trans with (inject_Z (running (st w))); [|exact Hle].
  rewrite <- Zle_Qle; exact Hc.
Qed.

Lemma outstanding_workers_within_limit_witness :
  exists w cs,
    perform fresh (Writes (WConcurrency (Fin 2))
                   :: map Does (adds [VStr "a"; VStr "b"; VStr "c"]
                                ++ repeat Tick 3))
      = Some (w, cs) /\
    inflight w = 2%nat /\
    le_js (Z.of_nat (inflight w)) (limit w) = true.
Proof.
  do 2 eexists; split; [vm_compute; reflexivity|]; split; [reflexivity|].
  eapply (outstanding_workers_within_limit
            (Writes (WConcurrency (Fin 2))
             :: map Does (adds [VStr "a"; VStr "b"; VStr "c"]
                          ++ repeat Tick 3)));
    [vm_compute; reflexivity | vm_compute; reflexivity].
Defined.
